(** * lcursesw: attributed string buffers (src/curses/chstr.c)

    A shallow embedding of the [chstr] buffer of the Lua curses binding and
    the properties of its operations.

    Conventions of the embedding.
    - The C data model is LP64: [int] and [unsigned int] have 32 bits,
      [size_t] has 64.  Integers are [Z]; every conversion between C types is
      written out ([to_uint], [to_int], [to_size_t], [to_attr_t]).
    - C leaves signed overflow, an access outside an allocated block and
      [free] of a pointer that [malloc] did not return undefined.  A call that
      reaches one of them has the outcome [Undefined].
    - A Lua error ([luaL_error], [luaL_argerror], a failed [luaL_argcheck])
      leaves the C function at once; its outcome is [Raise] and carries the
      state at that point.
    - A userdata of type [curses:chstr] holds the only pointer to its block
      ([chstr **]); the Lua state is the finite map from userdata to the block
      each one owns. *)

From Stdlib Require Import ZArith Lia Strings.Byte.
From stdpp Require Import base option list gmap strings.

Local Open Scope Z_scope.

(** ** Machine integers *)

Definition INT_MAX : Z := 2147483647.
Definition INT_MIN : Z := -2147483648.
Definition UINT_MAX : Z := 4294967295.

(** Conversion to [unsigned int]. *)
Definition to_uint (z : Z) : Z := z mod 4294967296.

(** Conversion to [int], as the cast [(int)cs->len] does it. *)
Definition to_int (z : Z) : Z := (z + 2147483648) mod 4294967296 - 2147483648.

(** Conversion to [size_t]. *)
Definition to_size_t (z : Z) : Z := z mod 18446744073709551616.

(** Conversion to [attr_t], the 32-bit unsigned type of a cell's attribute. *)
Definition to_attr_t (z : Z) : Z := z mod 4294967296.

(** The result of an [int] operation, when it is representable. *)
Definition int_result (z : Z) : option Z :=
  if (INT_MIN <=? z) && (z <=? INT_MAX) then Some z else None.

(** ** Data *)

(** [cchar_t]: the attribute and the first two wide characters, the only
    fields the module touches.  [wchar_t] holds every [int] (it is a 32-bit
    signed type), so that a code is stored as it is. *)
Record cchar_t : Type := Cchar {
  cc_attr : Z;
  cc_chars0 : Z;
  cc_chars1 : Z
}.

(** [struct chstr]: [len] (element number), [size] (buffer size) and the
    cells [str].  A block of [CHSTR_SIZE(n)] bytes has room for the declared
    cell [str[1]] and [n] more. *)
Record chstr : Type := Chstr {
  cs_len : Z;
  cs_size : Z;
  cs_str : list cchar_t
}.

Definition CHSTR_CELLS (len : Z) : nat := S (Z.to_nat len).

(** The representation invariant of a live buffer: at least one element, no
    more elements than the block has room for, [len] within [int] (it is read
    through [(int)cs->len]), and [size] telling the room of the block. *)
Record chstr_wf (cs : chstr) : Prop := {
  wf_len_pos : 1 <= cs_len cs;
  wf_len_size : cs_len cs <= cs_size cs;
  wf_len_int : cs_len cs <= 2147483647;
  wf_size_uint : cs_size cs <= 4294967295;
  wf_block : length (cs_str cs) = CHSTR_CELLS (cs_size cs)
}.

Definition handle := positive.

Abbreviation lua_State := (gmap positive chstr).

Inductive lua_error : Type :=
  | ArgError (narg : Z) (extramsg : string)
  | Error (msg : string).

Inductive outcome (A : Type) : Type :=
  | Return (a : A) (L : lua_State)
  | Raise (e : lua_error) (L : lua_State)
  | Undefined.
Arguments Return {A} a L.
Arguments Raise {A} e L.
Arguments Undefined {A}.

Definition lua (A : Type) : Type := lua_State -> outcome A.

Definition ret {A} (a : A) : lua A := fun L => Return a L.

Definition bind {A B} (m : lua A) (k : A -> lua B) : lua B :=
  fun L =>
    match m L with
    | Return a L' => k a L'
    | Raise e L' => Raise e L'
    | Undefined => Undefined
    end.

Notation "'let*' x ':=' m 'in' k" := (bind m (fun x => k))
  (at level 10, x name, m at level 100, k at level 200).
Notation "m ';;;' k" := (bind m (fun _ => k))
  (at level 100, k at level 200, right associativity).

Definition undefined {A} : lua A := fun _ => Undefined.

(** The state a call leaves, whether it returns or raises. *)
Definition state_after {A} (o : outcome A) : option lua_State :=
  match o with
  | Return _ L => Some L
  | Raise _ L => Some L
  | Undefined => None
  end.

Definition luaL_error {A} (msg : string) : lua A := fun L => Raise (Error msg) L.

Definition luaL_argerror {A} (narg : Z) (extramsg : string) : lua A :=
  fun L => Raise (ArgError narg extramsg) L.

Definition luaL_argcheck (cond : bool) (narg : Z) (extramsg : string) : lua unit :=
  if cond then ret tt else luaL_argerror narg extramsg.

(** [optint]: an absent or nil argument takes the default, converted to [int]. *)
Definition optint (arg : option Z) (def : Z) : Z :=
  match arg with
  | Some v => v
  | None => to_int def
  end.

(** [luaL_checkudata] on the userdata, then the pointer it holds. *)
Definition checkchstr (pcs : handle) (narg : Z) : lua chstr :=
  fun L =>
    match L !! pcs with
    | Some cs => Return cs L
    | None => Raise (ArgError narg "bad curses chstr") L
    end.

(** [*pcs = cs], and every write through the pointer the userdata holds. *)
Definition update (pcs : handle) (cs : chstr) : lua unit :=
  fun L => Return tt (<[pcs := cs]> L).

(** The userdata [lua_newuserdata] makes: one the state does not have. *)
Definition new_userdata (L : lua_State) : handle := fresh (dom L).

(** [lua_newuserdata] followed by the store of the block's pointer in it. *)
Definition lua_newuserdata (cs : chstr) : lua handle :=
  fun L => let ud := new_userdata L in Return ud (<[ud := cs]> L).

(** A write [str[i] = c]: undefined outside the block. *)
Definition poke (i : nat) (c : cchar_t) (str : list cchar_t) : option (list cchar_t) :=
  if decide (i < length str)%nat then Some (<[i := c]> str) else None.

(** [free(code_array)], where [code_array] is the distance of the pointer from
    the start of the array [malloc] returned. *)
Definition free_code_array {A} (code_array : Z) (k : lua A) : lua A :=
  if code_array =? 0 then k else fun _ => Undefined.

(** Every buffer of the state satisfies the invariant. *)
Definition state_wf (L : lua_State) : Prop :=
  forall ud cs, L !! ud = Some cs -> chstr_wf cs.

(** The value on the Lua stack that [create_chstr] looks at. *)
Inductive lua_value : Type :=
  | LString (str : list byte)
  | LNumber (n : Z)
  | LOther.

(** A request to the allocator: a block of [CHSTR_SIZE(n)] bytes, or an array
    of [n] ints. *)
Inductive alloc_request : Type :=
  | ReqChstr (n : Z)
  | ReqInts (n : Z).

Section Chstr.

(** The collaborators of the module: the allocator (whether it grants a
    request), the content of fresh storage, the UTF-8 decoder of
    [_helpers.c], and the constants of the curses library. *)
Variable malloc_ok : alloc_request -> bool.
Variable indeterminate : nat -> cchar_t.

(** [utf8_decode(str, &code)] reads the sequence at the head of its argument.
    [None] is the NULL result; [Some (code, count)] is the code read and the
    number of bytes it read after the first, the returned pointer being
    [str + count + 1]. *)
Variable utf8_decode : list byte -> option (Z * nat).

Variable A_NORMAL : Z.
Variable A_ATTRIBUTES : Z.
Variable A_COLOR : Z.

(** Fresh storage for the cells [from .. from + n - 1] of a block. *)
Definition fresh_cells (from n : nat) : list cchar_t :=
  map indeterminate (seq from n).

(** [malloc(CHSTR_SIZE(len))], when granted. *)
Definition malloc_chstr (len : Z) : list cchar_t :=
  fresh_cells 0 (CHSTR_CELLS len).

(** [realloc(cs, CHSTR_SIZE(new_size))], when granted: the cells that fit are
    kept, the others are fresh. *)
Definition realloc_chstr (str : list cchar_t) (new_size : Z) : list cchar_t :=
  take (CHSTR_CELLS new_size) str ++
  fresh_cells (length str) (CHSTR_CELLS new_size - length str).

(** *** chstr_new_by_size *)

(** The loop [for (i = 0; i < len; i++)] with [n] rounds left.  [len] comes
    from a positive [int], so that the [unsigned int] counter reaches it. *)
Fixpoint blank_loop (n : nat) (i : nat) (str : list cchar_t) : option (list cchar_t) :=
  match n with
  | O => Some str
  | S n' =>
    match poke i (Cchar A_NORMAL 32 0) str with
    | Some str' => blank_loop n' (S i) str'
    | None => None
    end
  end.

Definition chstr_new_by_size (len : Z) : lua (option chstr) :=
  if len <? 1 then ret None
  else if negb (malloc_ok (ReqChstr len)) then ret None
  else
    match blank_loop (Z.to_nat len) 0 (malloc_chstr len) with
    | Some str => ret (Some (Chstr (to_uint len) (to_uint len) str))
    | None => undefined
    end.

(** *** chstr_new *)

(** The loop [for (str_end = str + len; str < str_end; i++)].  [skip] counts
    the bytes of [str] the last call of [utf8_decode] has read already; the
    decoder is called where [skip] is 0, on the rest of the text. *)
Fixpoint chstr_new_loop (attr : Z) (skip : nat) (str : list byte) (i : nat)
    (cells : list cchar_t) : option (option (nat * list cchar_t)) :=
  match str with
  | [] => Some (Some (i, cells))
  | _ :: rest =>
    match skip with
    | S skip' => chstr_new_loop attr skip' rest i cells
    | O =>
      match utf8_decode str with
      | None => Some None
      | Some (code, count) =>
        match poke i (Cchar (to_attr_t attr) code 0) cells with
        | Some cells' => chstr_new_loop attr count rest (S i) cells'
        | None => None
        end
      end
    end
  end.

(** [len] is the length of [str], as [luaL_checklstring] reports it. *)
Definition chstr_new (str : list byte) (len : Z) (attr : Z) : lua (option chstr) :=
  if len <? 1 then ret None
  else if negb (malloc_ok (ReqChstr len)) then ret None
  else
    match chstr_new_loop attr 0 str 0 (malloc_chstr len) with
    | None => undefined
    | Some None => ret None
    | Some (Some (i, cells)) =>
      match int_result (Z.of_nat i) with
      | Some i => ret (Some (Chstr (to_uint i) (to_uint len) cells))
      | None => undefined
      end
    end.

(** *** create_chstr *)

Definition create_chstr (narg : Z) (arg : lua_value) (attr : option Z) : lua handle :=
  let* cs :=
    match arg with
    | LString str =>
      let len := Z.of_nat (length str) in
      let attr := optint attr A_NORMAL in
      chstr_new str len attr
    | LNumber len =>
      luaL_argcheck (0 <? len) narg "bad len" ;;;
      chstr_new_by_size len
    | LOther => luaL_error "bad argument"
    end in
  match cs with
  | None => luaL_error "create wstr failed!"
  | Some cs => lua_newuserdata cs
  end.

Definition C__call (arg : lua_value) (attr : option Z) : lua handle :=
  create_chstr 2 arg attr.

(** *** Cset_str *)

(** The decoding loop of [Cset_str]: the codes stored in [code_array], and
    whether the end of the text was reached ([false]: [utf8_decode] returned
    NULL).  [skip] is as in [chstr_new_loop]. *)
Fixpoint decode_loop (skip : nat) (str : list byte) : list Z * bool :=
  match str with
  | [] => ([], true)
  | _ :: rest =>
    match skip with
    | S skip' => decode_loop skip' rest
    | O =>
      match utf8_decode str with
      | None => ([], false)
      | Some (code, count) =>
        let '(codes, ok) := decode_loop count rest in (code :: codes, ok)
      end
    end
  end.

(** The inner loop [for (li = 0; li < utf8_str_len; li++)] from [p]. *)
Fixpoint fill_codes (attr : Z) (code_array : list Z) (p : nat) (str : list cchar_t)
    : option (nat * list cchar_t) :=
  match code_array with
  | [] => Some (p, str)
  | code :: more =>
    match poke p (Cchar attr code 0) str with
    | Some str' => fill_codes attr more (S p) str'
    | None => None
    end
  end.

(** The outer loop [for (i = 0; i < rep; i++)]. *)
Fixpoint fill_rep (rep : nat) (attr : Z) (code_array : list Z) (p : nat)
    (str : list cchar_t) : option (nat * list cchar_t) :=
  match rep with
  | O => Some (p, str)
  | S rep' =>
    match fill_codes attr code_array p str with
    | Some (p', str') => fill_rep rep' attr code_array p' str'
    | None => None
    end
  end.

Definition Cset_str (pcs : handle) (offset : Z) (str : list byte)
    (attr rep : option Z) : lua unit :=
  let* cs := checkchstr pcs 1 in
  luaL_argcheck ((0 <? offset) && (offset <=? to_int (cs_len cs))) 2 "bad index" ;;;
  let offset := offset - 1 in
  let len := Z.of_nat (length str) in
  let attr := optint attr A_NORMAL in
  let rep := optint rep 1 in
  luaL_argcheck (0 <? rep) 5 "rep should > 0" ;;;
  if negb (malloc_ok (ReqInts len)) then luaL_error "malloc failed" else
  let '(codes, ok) := decode_loop 0 str in
  match int_result (Z.of_nat (length codes)) with
  | None => undefined
  | Some utf8_str_len =>
    (* [code_array] is [utf8_str_len] ints past the start of the array after
       the loop, and one more when the last call of [utf8_decode] failed;
       [code_array -= utf8_str_len] brings it back to the start *)
    if negb ok then
      free_code_array (utf8_str_len + 1) (luaL_argerror 3 "bad utf8 byte sequence")
    else if utf8_str_len <? 1 then
      free_code_array utf8_str_len (luaL_argerror 3 "empty string")
    else
      let code_array := utf8_str_len - utf8_str_len in
      match int_result (utf8_str_len * rep) with
      | None => undefined
      | Some product =>
        match int_result (product + offset) with
        | None => undefined
        | Some sum =>
          let new_size := to_size_t sum in
          let* cs :=
            (if cs_size cs <? new_size then
               if negb (malloc_ok (ReqChstr new_size)) then
                 free_code_array code_array (luaL_error "realloc failed")
               else
                 let new_cs := Chstr (cs_len cs) (to_uint new_size)
                                 (realloc_chstr (cs_str cs) new_size) in
                 update pcs new_cs ;;; ret new_cs
             else ret cs) in
          let cs :=
            if cs_len cs <? new_size
            then Chstr (to_uint new_size) (cs_size cs) (cs_str cs)
            else cs in
          update pcs cs ;;;
          match fill_rep (Z.to_nat rep) (to_attr_t attr) codes (Z.to_nat offset) (cs_str cs) with
          | None => undefined
          | Some (_, cells) =>
            update pcs (Chstr (cs_len cs) (cs_size cs) cells) ;;;
            free_code_array code_array (ret tt)
          end
        end
      end
  end.

(** *** Cset_ch *)

(** The loop [while (rep--)], with [rep] rounds left. *)
Fixpoint set_ch_loop (rep : nat) (set_attr : bool) (attr ch : Z) (offset : nat)
    (str : list cchar_t) : option (list cchar_t) :=
  match rep with
  | O => Some str
  | S rep' =>
    match str !! offset with
    | None => None
    | Some old =>
      let c := Cchar (if set_attr then to_attr_t attr else cc_attr old) ch 0 in
      set_ch_loop rep' set_attr attr ch (S offset) (<[offset := c]> str)
    end
  end.

(** [ch] is the code point [checkutf8char] returns; [attr] is [None] when the
    argument is absent or nil. *)
Definition Cset_ch (pcs : handle) (offset : Z) (ch : Z) (attr rep : option Z)
    : lua unit :=
  let* cs := checkchstr pcs 1 in
  luaL_argcheck ((0 <? offset) && (offset <=? to_int (cs_len cs))) 2 "bad index" ;;;
  let set_attr := bool_decide (is_Some attr) in
  let attr := optint attr A_NORMAL in
  let rep := optint rep 1 in
  luaL_argcheck ((0 <? rep) && (rep <=? to_int (cs_len cs) - offset + 1)) 5 "bad rep" ;;;
  let offset := offset - 1 in
  match set_ch_loop (Z.to_nat rep) set_attr attr ch (Z.to_nat offset) (cs_str cs) with
  | None => undefined
  | Some cells => update pcs (Chstr (cs_len cs) (cs_size cs) cells)
  end.

(** *** Cget, Clen, Csize *)

Definition Cget (pcs : handle) (offset : Z) : lua (Z * Z * Z) :=
  let* cs := checkchstr pcs 1 in
  luaL_argcheck ((0 <? offset) && (offset <=? to_int (cs_len cs))) 2
    "index range: [1 .. cs:len()]" ;;;
  match cs_str cs !! Z.to_nat (offset - 1) with
  | None => undefined
  | Some ch =>
    ret (cc_chars0 ch, Z.land (cc_attr ch) A_ATTRIBUTES, Z.land (cc_attr ch) A_COLOR)
  end.

Definition Clen (pcs : handle) : lua Z :=
  let* cs := checkchstr pcs 1 in ret (cs_len cs).

Definition Csize (pcs : handle) : lua Z :=
  let* cs := checkchstr pcs 1 in ret (cs_size cs).

(** *** Cdup *)

(** [memcpy] copies the header and the [rlen + 1] cells a block of
    [CHSTR_SIZE(rlen)] bytes holds; the userdata made before [malloc] is
    dropped with the stack when the call raises. *)
Definition Cdup (pcs : handle) : lua handle :=
  let* cs := checkchstr pcs 1 in
  let rlen := to_size_t (cs_len cs) in
  if negb (malloc_ok (ReqChstr rlen)) then luaL_error "[chstr:dup] malloc failed"
  else if decide (CHSTR_CELLS rlen <= length (cs_str cs))%nat then
    lua_newuserdata (Chstr (cs_len cs) (to_uint rlen) (take (CHSTR_CELLS rlen) (cs_str cs)))
  else undefined.

(** *** The methods, as a Lua program calls them *)

Inductive call : Type :=
  | Call_new (arg : lua_value) (attr : option Z)
  | Call_set_str (pcs : handle) (offset : Z) (str : list byte) (attr rep : option Z)
  | Call_set_ch (pcs : handle) (offset ch : Z) (attr rep : option Z)
  | Call_get (pcs : handle) (offset : Z)
  | Call_len (pcs : handle)
  | Call_size (pcs : handle)
  | Call_dup (pcs : handle).

(** The state a call leaves, [None] when its outcome is undefined. *)
Definition run (c : call) (L : lua_State) : option lua_State :=
  match c with
  | Call_new arg attr => state_after (C__call arg attr L)
  | Call_set_str pcs offset str attr rep => state_after (Cset_str pcs offset str attr rep L)
  | Call_set_ch pcs offset ch attr rep => state_after (Cset_ch pcs offset ch attr rep L)
  | Call_get pcs offset => state_after (Cget pcs offset L)
  | Call_len pcs => state_after (Clen pcs L)
  | Call_size pcs => state_after (Csize pcs L)
  | Call_dup pcs => state_after (Cdup pcs L)
  end.

(** The arguments of a constructor fit the C types that receive them: a
    size is an [int], and the length of a text fits the [unsigned int] field
    [size]. *)
Definition fits (c : call) : Prop :=
  match c with
  | Call_new (LString str) _ => Z.of_nat (length str) <= UINT_MAX
  | Call_new (LNumber n) _ => n <= INT_MAX
  | _ => True
  end.

(** The states a Lua program reaches from the empty state through calls
    whose arguments fit. *)
Inductive reachable : lua_State -> Prop :=
  | reachable_empty : reachable ∅
  | reachable_call c L L' :
      reachable L -> fits c -> run c L = Some L' -> reachable L'.

End Chstr.

(** ** A reference decoder *)

(** Modelled from the spec: [utf8_decode] of [_helpers.c], which is not among
    the sources.  It decodes one scalar value from the head of a byte
    sequence and reports the bytes consumed, or fails: one to four bytes,
    continuation bytes of the form 10xxxxxx, no overlong form, no surrogate,
    nothing above U+10FFFF. *)
Module Utf8.

Definition byte_val (b : byte) : Z := Z.of_N (Byte.to_N b).

Definition continuation (b : byte) : option Z :=
  let c := byte_val b in
  if (128 <=? c) && (c <? 192) then Some (c - 128) else None.

Definition in_range (lo hi : Z) (code : Z) (count : nat) : option (Z * nat) :=
  if (lo <=? code) && (code <=? hi) then Some (code, count) else None.

Definition utf8_decode (str : list byte) : option (Z * nat) :=
  match str with
  | [] => None
  | b :: more =>
    let c := byte_val b in
    if c <? 128 then Some (c, O)
    else if c <? 192 then None
    else if c <? 224 then
      match more with
      | b1 :: _ =>
        c1 ← continuation b1;
        in_range 128 2047 ((c - 192) * 64 + c1) 1
      | _ => None
      end
    else if c <? 240 then
      match more with
      | b1 :: b2 :: _ =>
        c1 ← continuation b1;
        c2 ← continuation b2;
        let code := ((c - 224) * 64 + c1) * 64 + c2 in
        if (55296 <=? code) && (code <=? 57343) then None
        else in_range 2048 65535 code 2
      | _ => None
      end
    else if c <? 248 then
      match more with
      | b1 :: b2 :: b3 :: _ =>
        c1 ← continuation b1;
        c2 ← continuation b2;
        c3 ← continuation b3;
        in_range 65536 1114111 ((((c - 240) * 64 + c1) * 64 + c2) * 64 + c3) 3
      | _ => None
      end
    else None
  end.

End Utf8.

(** The collaborators used where a statement is evaluated: an allocator that
    grants every request, fresh storage filled with a recognisable cell, the
    reference decoder, and the constants of ncurses 6 ([A_NORMAL] = 0,
    [A_ATTRIBUTES] = 0xffffff00, [A_COLOR] = 0xff00). *)
Module Sample.

Definition malloc_ok (_ : alloc_request) : bool := true.
Definition indeterminate (_ : nat) : cchar_t := Cchar 3735928559 65533 65533.
Definition A_NORMAL : Z := 0.
Definition A_ATTRIBUTES : Z := 4294967040.
Definition A_COLOR : Z := 65280.
Definition A_BOLD : Z := 2097152.

Definition C__call := C__call malloc_ok indeterminate Utf8.utf8_decode A_NORMAL.
Definition Cset_str := Cset_str malloc_ok indeterminate Utf8.utf8_decode A_NORMAL.
Definition Cset_ch := Cset_ch A_NORMAL.
Definition Cget := Cget A_ATTRIBUTES A_COLOR.
Definition Cdup := Cdup malloc_ok.

(** The state after an outcome, the empty state when there is none. *)
Definition state_of {A} (o : outcome A) : lua_State :=
  match o with
  | Return _ L => L
  | Raise _ L => L
  | Undefined => ∅
  end.

(** The text of the documentation of [len], "hi," and the code points U+4E16
    and U+754C: nine bytes for five code points. *)
Definition hi_world : list byte :=
  [x68; x69; x2c; xe4; xb8; x96; xe7; x95; x8c]%byte.

Definition buffer_of (L : lua_State) (ud : handle) : chstr :=
  default (Chstr 0 0 []) (L !! ud).

(** [curses.chstr (3)] and [curses.chstr (hi_world, A_BOLD)], each the first
    userdata of its state. *)
Definition blank_state : lua_State := state_of (C__call (LNumber 3) None ∅).
Definition hi_state : lua_State :=
  state_of (C__call (LString hi_world) (Some A_BOLD) ∅).

Definition text_AB : list byte := [x41; x42]%byte.
Definition text_malformed : list byte := [x41; xff]%byte.

Definition hi_buffer : chstr := buffer_of hi_state 1%positive.

(** [cs:set_str (5, "AB", nil, 3)] and [cs:set_str (5, "AB", nil, 2)] on the
    buffer of [hi_state]. *)
Definition hi_grown : lua_State :=
  state_of (Cset_str 1%positive 5 text_AB None (Some 3) hi_state).
Definition hi_filled : lua_State :=
  state_of (Cset_str 1%positive 5 text_AB None (Some 2) hi_state).

Definition Clen := Clen.
Definition Csize := Csize.
Definition text_A : list byte := [x41]%byte.
Definition hi_grown_buffer : chstr := buffer_of hi_grown 1%positive.

(** U+1F600 in its four bytes, and a text of 2^30 of them: 2^32 bytes. *)
Definition smiley : list byte := [xf0; x9f; x98; x80]%byte.
Abbreviation four_gib_text := (mjoin (replicate (Z.to_nat 1073741824) smiley)).

End Sample.

(** ** Machine integers: the conversions on representable values *)

Lemma to_uint_small z : 0 <= z <= UINT_MAX -> to_uint z = z.
Proof. unfold to_uint, UINT_MAX. intros. apply Z.mod_small. lia. Qed.

Lemma to_int_small z : INT_MIN <= z <= INT_MAX -> to_int z = z.
Proof.
  unfold to_int, INT_MIN, INT_MAX. intros.
  rewrite Z.mod_small by lia. lia.
Qed.

Lemma to_size_t_small z : 0 <= z <= UINT_MAX -> to_size_t z = z.
Proof. unfold to_size_t, UINT_MAX. intros. apply Z.mod_small. lia. Qed.

Lemma int_result_Some z v :
  int_result z = Some v <-> v = z /\ INT_MIN <= z <= INT_MAX.
Proof.
  unfold int_result. split.
  - destruct (INT_MIN <=? z) eqn:Hlo; destruct (z <=? INT_MAX) eqn:Hhi;
      simpl; intros [= <-]. lia.
  - intros [-> [Hlo Hhi]].
    apply Z.leb_le in Hlo, Hhi. rewrite Hlo, Hhi. reflexivity.
Qed.

Lemma int_result_small z : INT_MIN <= z <= INT_MAX -> int_result z = Some z.
Proof. intros. apply int_result_Some. auto. Qed.

(** Masking with a 32-bit mask sees the bits of the value, whichever the C
    type it is read through. *)
Lemma land_to_attr_t a m : 0 <= m <= UINT_MAX -> Z.land (to_attr_t a) m = Z.land a m.
Proof.
  unfold to_attr_t, UINT_MAX. intros Hm.
  change 4294967296 with (2 ^ 32).
  rewrite <- Z.land_ones by lia.
  rewrite <- Z.land_assoc. f_equal.
  rewrite Z.land_comm, Z.land_ones by lia.
  apply Z.mod_small. lia.
Qed.

(** The default attribute of [Cset_str] and [chstr_new], [(int)A_NORMAL],
    is stored as [A_NORMAL]. *)
Lemma to_attr_t_to_int z : to_attr_t (to_int z) = to_attr_t z.
Proof.
  unfold to_attr_t, to_int.
  rewrite Zminus_mod, Zmod_mod, <- Zminus_mod.
  replace (z + 2147483648 - 2147483648) with z by lia. reflexivity.
Qed.

(** ** Writes and loops *)

Lemma poke_Some i c str str' :
  poke i c str = Some str' <-> (i < length str)%nat /\ str' = <[i := c]> str.
Proof.
  unfold poke. destruct (decide (i < length str)%nat); split.
  - intros [= <-]. auto.
  - intros [_ ->]. reflexivity.
  - discriminate.
  - intros [? _]. lia.
Qed.

Lemma poke_in_range i c str :
  (i < length str)%nat -> poke i c str = Some (<[i := c]> str).
Proof. intros. apply poke_Some. auto. Qed.

Section Loops.

Variable A_NORMAL : Z.
Variable utf8_decode : list byte -> option (Z * nat).

Local Abbreviation blank_loop := (blank_loop A_NORMAL).
Local Abbreviation chstr_new_loop := (chstr_new_loop utf8_decode).
Local Abbreviation decode_loop := (decode_loop utf8_decode).

Lemma blank_loop_spec n : forall i str,
  (i + n <= length str)%nat ->
  exists str', blank_loop n i str = Some str' /\
    length str' = length str /\
    (forall j, (i <= j < i + n)%nat -> str' !! j = Some (Cchar A_NORMAL 32 0)) /\
    (forall j, (j < i \/ i + n <= j)%nat -> str' !! j = str !! j).
Proof.
  induction n as [|n IH]; intros i str Hlen; simpl.
  - exists str. repeat split; auto. intros; lia.
  - rewrite poke_in_range by lia.
    destruct (IH (S i) (<[i := Cchar A_NORMAL 32 0]> str)) as (str' & -> & Hl & Hin & Hout).
    { rewrite length_insert. lia. }
    exists str'. rewrite length_insert in Hl. repeat split; auto.
    + intros j Hj. destruct (decide (j = i)) as [->|Hne].
      * rewrite Hout by lia. apply list_lookup_insert_eq. lia.
      * apply Hin. lia.
    + intros j Hj. rewrite Hout by lia. apply list_lookup_insert_ne. lia.
Qed.

(** Every code point takes at least one byte. *)
Lemma decode_loop_length str : forall skip codes ok,
  decode_loop skip str = (codes, ok) ->
  (length codes + skip <= length str \/ codes = [])%nat.
Proof.
  induction str as [|b rest IH]; intros skip codes ok; simpl.
  - intros [= <- <-]. auto.
  - destruct skip as [|skip].
    + destruct (utf8_decode (b :: rest)) as [[code count]|].
      * destruct (decode_loop count rest) as [codes' ok'] eqn:E.
        intros [= <- <-]. left. simpl.
        destruct (IH _ _ _ E) as [?| ->]; simpl; lia.
      * intros [= <- <-]. auto.
    + intros E. destruct (IH _ _ _ E); auto. left. lia.
Qed.

Lemma decode_loop_length_le str codes ok :
  decode_loop 0 str = (codes, ok) -> (length codes <= length str)%nat.
Proof.
  intros E. destruct (decode_loop_length _ _ _ _ E) as [?| ->]; simpl; lia.
Qed.

Lemma decode_loop_nonempty str codes :
  str <> [] -> decode_loop 0 str = (codes, true) -> codes <> [].
Proof.
  destruct str as [|b rest]; [congruence|]. intros _. simpl.
  destruct (utf8_decode (b :: rest)) as [[code count]|]; [|discriminate].
  destruct (decode_loop count rest). intros [= <- _]. discriminate.
Qed.

(** The loop of [chstr_new] decodes as the loop of [Cset_str] does, and puts
    the codes in consecutive cells from [i]. *)
Lemma chstr_new_loop_spec attr str : forall skip i cells,
  (i + (length str - skip) <= length cells)%nat ->
  match decode_loop skip str with
  | (codes, true) =>
    exists cells', chstr_new_loop attr skip str i cells
                   = Some (Some ((i + length codes)%nat, cells')) /\
      length cells' = length cells /\
      (forall k c, codes !! k = Some c ->
         cells' !! (i + k)%nat = Some (Cchar (to_attr_t attr) c 0)) /\
      (forall j, (j < i \/ i + length codes <= j)%nat -> cells' !! j = cells !! j)
  | (_, false) => chstr_new_loop attr skip str i cells = Some None
  end.
Proof.
  induction str as [|b rest IH]; intros skip i cells Hlen; simpl.
  - exists cells. rewrite Nat.add_0_r. repeat split; auto.
    intros k c Hk. rewrite lookup_nil in Hk. discriminate.
  - destruct skip as [|skip].
    + destruct (utf8_decode (b :: rest)) as [[code count]|]; [|reflexivity].
      simpl in Hlen. rewrite poke_in_range by lia.
      specialize (IH count (S i) (<[i := Cchar (to_attr_t attr) code 0]> cells)).
      rewrite length_insert in IH.
      destruct (decode_loop count rest) as [codes [|]].
      * destruct IH as (cells' & -> & Hl & Hin & Hout); [lia|].
        exists cells'. simpl. replace (i + S (length codes))%nat
          with (S i + length codes)%nat by lia.
        repeat split; auto.
        -- intros [|k] c Hk; simpl in Hk.
           ++ injection Hk as <-. rewrite Hout by lia.
              rewrite Nat.add_0_r. apply list_lookup_insert_eq. lia.
           ++ replace (i + S k)%nat with (S i + k)%nat by lia. auto.
        -- intros j Hj. rewrite Hout by lia. apply list_lookup_insert_ne. lia.
      * apply IH. lia.
    + apply IH. simpl in Hlen. lia.
Qed.

Lemma fill_codes_Some attr codes : forall p str p' str',
  fill_codes attr codes p str = Some (p', str') ->
  p' = (p + length codes)%nat /\ length str' = length str /\
  (codes <> [] -> (p + length codes <= length str)%nat) /\
  (forall k c, codes !! k = Some c -> str' !! (p + k)%nat = Some (Cchar attr c 0)) /\
  (forall j, (j < p \/ p + length codes <= j)%nat -> str' !! j = str !! j).
Proof.
  induction codes as [|code more IH]; intros p str p' str'; simpl.
  - intros [= <- <-]. repeat split; auto; try lia; try congruence.
    intros k c Hk. rewrite lookup_nil in Hk. discriminate.
  - destruct (poke p (Cchar attr code 0) str) as [str1|] eqn:Hpoke; [|discriminate].
    apply poke_Some in Hpoke as [Hp ->]. intros H.
    apply IH in H as (-> & Hl & Hfit & Hin & Hout).
    rewrite length_insert in Hl, Hfit.
    repeat split; auto; try lia.
    + intros _. destruct more; [simpl; lia|].
      specialize (Hfit ltac:(discriminate)). lia.
    + intros [|k] c Hk; simpl in Hk.
      * injection Hk as <-. rewrite Hout by lia.
        rewrite Nat.add_0_r. apply list_lookup_insert_eq. lia.
      * replace (p + S k)%nat with (S p + k)%nat by lia. auto.
    + intros j Hj. rewrite Hout by lia. apply list_lookup_insert_ne. lia.
Qed.

Lemma fill_codes_in_range attr codes : forall p str,
  (p + length codes <= length str)%nat ->
  exists str', fill_codes attr codes p str = Some ((p + length codes)%nat, str').
Proof.
  induction codes as [|code more IH]; intros p str Hfit; simpl in *.
  - exists str. rewrite Nat.add_0_r. reflexivity.
  - rewrite poke_in_range by lia.
    destruct (IH (S p) (<[p := Cchar attr code 0]> str)) as [str' ->].
    { rewrite length_insert. lia. }
    exists str'. do 2 f_equal. lia.
Qed.

(** The tiling: [rep] copies of the codes, back to back from [p]. *)
Lemma fill_rep_Some attr codes rep : forall p str p' str',
  fill_rep rep attr codes p str = Some (p', str') ->
  length str' = length str /\
  ((0 < rep * length codes)%nat -> (p + rep * length codes <= length str)%nat) /\
  (forall k, (k < rep * length codes)%nat ->
     exists c, codes !! (k mod length codes)%nat = Some c /\
               str' !! (p + k)%nat = Some (Cchar attr c 0)) /\
  (forall j, (j < p \/ p + rep * length codes <= j)%nat -> str' !! j = str !! j).
Proof.
  induction rep as [|rep IH]; intros p str p' str'; simpl.
  - intros [= <- <-]. repeat split; auto; intros; lia.
  - destruct (fill_codes attr codes p str) as [[p1 str1]|] eqn:Hone; [|discriminate].
    apply fill_codes_Some in Hone as (-> & Hl1 & Hfit1 & Hin1 & Hout1).
    intros H. apply IH in H as (Hl & Hfit & Hin & Hout).
    rewrite Hl1 in Hl, Hfit.
    repeat split; auto.
    + intros Hpos. destruct codes as [|c0 more]; [simpl in Hpos; lia|].
      specialize (Hfit1 ltac:(discriminate)).
      destruct rep as [|rep']; [simpl in *; lia|].
      assert (0 < S rep' * length (c0 :: more))%nat by (simpl; lia). lia.
    + intros k Hk. destruct (decide (k < length codes)%nat) as [Hlt|Hge].
      * destruct (lookup_lt_is_Some_2 codes k Hlt) as [c Hc].
        exists c. rewrite Nat.mod_small by lia. split; [exact Hc|].
        rewrite Hout by lia. auto.
      * destruct (Hin (k - length codes)%nat) as (c & Hc & Hcell); [lia|].
        exists c. split.
        -- rewrite <- Hc. f_equal.
           rewrite <- (Nat.Div0.mod_add (k - length codes) 1). f_equal. lia.
        -- rewrite <- Hcell. f_equal. lia.
    + intros j Hj. rewrite Hout by lia. apply Hout1. lia.
Qed.

Lemma fill_rep_in_range attr codes rep : forall p str,
  (p + rep * length codes <= length str)%nat ->
  exists p' str', fill_rep rep attr codes p str = Some (p', str').
Proof.
  induction rep as [|rep IH]; intros p str Hfit; simpl in *.
  - eauto.
  - destruct (fill_codes_in_range attr codes p str) as [str1 Hone]; [lia|].
    rewrite Hone. apply IH.
    apply fill_codes_Some in Hone as (_ & -> & _). lia.
Qed.

Lemma set_ch_loop_spec set_attr attr ch rep : forall offset str,
  (offset + rep <= length str)%nat ->
  exists str', set_ch_loop rep set_attr attr ch offset str = Some str' /\
    length str' = length str /\
    (forall j, (offset <= j < offset + rep)%nat ->
       exists old, str !! j = Some old /\
         str' !! j = Some (Cchar (if set_attr then to_attr_t attr else cc_attr old) ch 0)) /\
    (forall j, (j < offset \/ offset + rep <= j)%nat -> str' !! j = str !! j).
Proof.
  induction rep as [|rep IH]; intros offset str Hfit; simpl.
  - exists str. repeat split; auto. intros; lia.
  - destruct (lookup_lt_is_Some_2 str offset ltac:(lia)) as [old Hold].
    rewrite Hold.
    set (c := Cchar (if set_attr then to_attr_t attr else cc_attr old) ch 0).
    destruct (IH (S offset) (<[offset := c]> str)) as (str' & -> & Hl & Hin & Hout).
    { rewrite length_insert. lia. }
    rewrite length_insert in Hl.
    exists str'. repeat split; auto.
    + intros j Hj. destruct (decide (j = offset)) as [->|Hne].
      * exists old. split; [exact Hold|].
        rewrite Hout by lia. apply list_lookup_insert_eq. lia.
      * destruct (Hin j ltac:(lia)) as (old' & Ho & Hn).
        rewrite list_lookup_insert_ne in Ho by lia. eauto.
    + intros j Hj. rewrite Hout by lia. apply list_lookup_insert_ne. lia.
Qed.

End Loops.

(** ** The operations, run on a buffer that satisfies the invariant *)

Section Operations.

Variable malloc_ok : alloc_request -> bool.
Variable indeterminate : nat -> cchar_t.
Variable utf8_decode : list byte -> option (Z * nat).
Variable A_NORMAL : Z.
Variable A_ATTRIBUTES : Z.
Variable A_COLOR : Z.

Local Abbreviation realloc_chstr := (realloc_chstr indeterminate).
Local Abbreviation malloc_chstr := (malloc_chstr indeterminate).
Local Abbreviation decode_loop := (decode_loop utf8_decode).
Local Abbreviation chstr_new := (chstr_new malloc_ok indeterminate utf8_decode).
Local Abbreviation chstr_new_by_size := (chstr_new_by_size malloc_ok indeterminate A_NORMAL).
Local Abbreviation create_chstr :=
  (create_chstr malloc_ok indeterminate utf8_decode A_NORMAL).
Local Abbreviation C__call := (C__call malloc_ok indeterminate utf8_decode A_NORMAL).
Local Abbreviation Cset_str := (Cset_str malloc_ok indeterminate utf8_decode A_NORMAL).
Local Abbreviation Cset_ch := (Cset_ch A_NORMAL).
Local Abbreviation Cget := (Cget A_ATTRIBUTES A_COLOR).
Local Abbreviation Cdup := (Cdup malloc_ok).

Lemma length_fresh_cells from n : length (fresh_cells indeterminate from n) = n.
Proof. unfold fresh_cells. rewrite length_map. apply length_seq. Qed.

Lemma length_malloc_chstr len : length (malloc_chstr len) = CHSTR_CELLS len.
Proof. apply length_fresh_cells. Qed.

(** Growth keeps every cell of the block. *)
Lemma realloc_chstr_grow str new_size :
  (length str <= CHSTR_CELLS new_size)%nat ->
  length (realloc_chstr str new_size) = CHSTR_CELLS new_size /\
  (forall j, (j < length str)%nat -> realloc_chstr str new_size !! j = str !! j).
Proof.
  intros Hle. unfold realloc_chstr. split.
  - rewrite length_app, length_take, length_fresh_cells. lia.
  - intros j Hj. rewrite take_ge by lia. apply lookup_app_l. exact Hj.
Qed.

(** What a call of [Cset_str] that returns has done. *)
Lemma Cset_str_Return L pcs cs offset str attr rep L' :
  L !! pcs = Some cs ->
  Cset_str pcs offset str attr rep L = Return tt L' ->
  exists codes p cells,
    let r := optint rep 1 in
    let required := Z.of_nat (length codes) * r + (offset - 1) in
    let block := if cs_size cs <? required
                 then realloc_chstr (cs_str cs) required else cs_str cs in
    (0 < offset <= to_int (cs_len cs)) /\ 0 < r /\
    decode_loop 0 str = (codes, true) /\ codes <> [] /\
    required <= INT_MAX /\
    fill_rep (Z.to_nat r) (to_attr_t (optint attr A_NORMAL)) codes
      (Z.to_nat (offset - 1)) block = Some (p, cells) /\
    L' = <[pcs := Chstr (if cs_len cs <? required then required else cs_len cs)
                        (if cs_size cs <? required then required else cs_size cs)
                        cells]> L.
Proof.
  intros Hcs.
  unfold Cset_str, bind, checkchstr, luaL_argcheck, luaL_argerror, luaL_error, ret.
  rewrite Hcs.
  destruct ((0 <? offset) && (offset <=? to_int (cs_len cs))) eqn:Hoff;
    [|discriminate].
  apply andb_true_iff in Hoff as [Hlo%Z.ltb_lt Hhi%Z.leb_le].
  destruct (0 <? optint rep 1) eqn:Hrep; [|discriminate].
  apply Z.ltb_lt in Hrep.
  destruct (malloc_ok (ReqInts _)); unfold negb; cbv beta iota; [|discriminate].
  destruct (decode_loop 0 str) as [codes ok] eqn:Hdec.
  destruct (int_result (Z.of_nat (length codes))) as [d|] eqn:Hd; [|discriminate].
  apply int_result_Some in Hd as [-> Hd].
  destruct ok; unfold negb; cbv beta iota.
  2:{ unfold free_code_array. destruct (_ =? 0) eqn:E; [|discriminate].
      apply Z.eqb_eq in E. lia. }
  destruct (Z.of_nat (length codes) <? 1) eqn:Hne.
  { unfold free_code_array. destruct (_ =? 0); discriminate. }
  apply Z.ltb_ge in Hne.
  destruct (int_result (_ * _)) as [product|] eqn:Hprod; [|discriminate].
  apply int_result_Some in Hprod as [-> Hprod].
  destruct (int_result (_ + _)) as [sum|] eqn:Hsum; [|discriminate].
  apply int_result_Some in Hsum as [-> Hsum].
  assert (Hreq : 0 <= Z.of_nat (length codes) * optint rep 1 + (offset - 1)) by nia.
  rewrite to_size_t_small by (unfold INT_MAX, UINT_MAX in *; lia).
  set (required := Z.of_nat (length codes) * optint rep 1 + (offset - 1)) in *.
  intros Hrun. exists codes.
  assert (Hcodes : codes <> []) by (destruct codes; simpl in *; [lia|discriminate]).
  assert (Hu : to_uint required = required)
    by (apply to_uint_small; unfold INT_MAX, UINT_MAX in *; lia).
  unfold free_code_array, update in Hrun.
  rewrite Z.sub_diag, ?Hu in Hrun. change (0 =? 0) with true in Hrun.
  destruct (cs_size cs <? required) eqn:Hgrow;
    [destruct (malloc_ok (ReqChstr required)); [|discriminate]|];
    cbv beta iota delta [cs_len cs_size cs_str] in Hrun;
    fold (cs_len cs) (cs_size cs) (cs_str cs) in Hrun;
    destruct (cs_len cs <? required) eqn:Hlen;
    cbv beta iota in Hrun;
    (destruct (fill_rep _ _ _ _ _) as [[p cells]|] eqn:Hfill; [|discriminate]);
    injection Hrun as <-; exists p, cells;
    rewrite !insert_insert_eq; subst required; cbv zeta;
    rewrite Hgrow, Hlen; repeat split; auto; lia.
Qed.

(** The cells of the block [Cset_str] fills, after the growth if there is
    one: the cells of the old block are all there. *)
Lemma set_str_block cs required :
  chstr_wf cs ->
  let block := if cs_size cs <? required
               then realloc_chstr (cs_str cs) required else cs_str cs in
  (length (cs_str cs) <= length block)%nat /\
  (forall j, (j < length (cs_str cs))%nat -> block !! j = cs_str cs !! j).
Proof.
  intros Hwf. destruct (cs_size cs <? required) eqn:Hgrow; cbv zeta; [|auto].
  apply Z.ltb_lt in Hgrow.
  destruct (realloc_chstr_grow (cs_str cs) required) as [Hl Hkeep].
  { rewrite (wf_block _ Hwf). unfold CHSTR_CELLS. lia. }
  split; [|exact Hkeep].
  rewrite Hl, (wf_block _ Hwf). unfold CHSTR_CELLS. lia.
Qed.

(** C1: a call of set_str that returns has decoded the text into
    decoded_length code points and has the extent
    required = (offset - 1) + decoded_length * repeat; a required extent above
    the capacity makes the capacity exactly required, a required extent above
    the length makes the length required, and a required extent within the
    length leaves length and capacity as they were. *)
Theorem set_str_extent L pcs cs offset str attr rep L' :
  L !! pcs = Some cs ->
  cs_len cs <= cs_size cs ->
  Cset_str pcs offset str attr rep L = Return tt L' ->
  exists codes cs',
    decode_loop 0 str = (codes, true) /\ L' !! pcs = Some cs' /\
    let required := (offset - 1) + Z.of_nat (length codes) * optint rep 1 in
    (cs_size cs < required -> cs_size cs' = required) /\
    (cs_len cs < required -> cs_len cs' = required) /\
    (required <= cs_len cs ->
       cs_len cs' = cs_len cs /\ cs_size cs' = cs_size cs).
Proof.
  intros Hcs Hinv Hrun.
  destruct (Cset_str_Return _ _ _ _ _ _ _ _ Hcs Hrun)
    as (codes & p & cells & _ & _ & Hdec & _ & _ & _ & ->).
  eexists codes, _. split; [exact Hdec|]. split; [apply lookup_insert_eq|].
  cbv zeta. cbn [cs_len cs_size].
  replace (offset - 1 + Z.of_nat (length codes) * optint rep 1)
    with (Z.of_nat (length codes) * optint rep 1 + (offset - 1)) by lia.
  set (required := Z.of_nat (length codes) * optint rep 1 + (offset - 1)).
  destruct (cs_size cs <? required) eqn:Hgrow;
    destruct (cs_len cs <? required) eqn:Hlen;
    rewrite ?Z.ltb_lt, ?Z.ltb_ge in Hgrow, Hlen; repeat split; lia.
Qed.

(** C4: after a call of set_str that returns, with the text decoded into the
    codes c[0..d-1], the cell at position offset + k (1-based), for every
    k below d * repeat, holds c[k mod d] and the attribute of the call, and
    every other cell of the block the buffer had keeps its content. *)
Theorem set_str_cells L pcs cs offset str attr rep L' :
  L !! pcs = Some cs ->
  chstr_wf cs ->
  Cset_str pcs offset str attr rep L = Return tt L' ->
  exists codes cs',
    decode_loop 0 str = (codes, true) /\ L' !! pcs = Some cs' /\
    let first := Z.to_nat (offset - 1) in
    let count := (Z.to_nat (optint rep 1) * length codes)%nat in
    (forall k, (k < count)%nat ->
       exists c, codes !! (k mod length codes)%nat = Some c /\
         cs_str cs' !! (first + k)%nat
         = Some (Cchar (to_attr_t (optint attr A_NORMAL)) c 0)) /\
    (forall j, (j < length (cs_str cs))%nat ->
       (j < first \/ first + count <= j)%nat ->
       cs_str cs' !! j = cs_str cs !! j).
Proof.
  intros Hcs Hwf Hrun.
  destruct (Cset_str_Return _ _ _ _ _ _ _ _ Hcs Hrun)
    as (codes & p & cells & _ & _ & Hdec & _ & _ & Hfill & ->).
  eexists codes, _. split; [exact Hdec|]. split; [apply lookup_insert_eq|].
  cbv zeta in *. cbn [cs_str].
  apply fill_rep_Some in Hfill as (_ & _ & Hin & Hout).
  split; [exact Hin|].
  intros j Hj Hrange. rewrite Hout by exact Hrange.
  apply (set_str_block cs _ Hwf). exact Hj.
Qed.

(** C10: on a buffer whose capacity exceeds its length, a call of set_str
    that returns with length < required <= capacity leaves the capacity and
    the block as they were (nothing is reallocated: the block has the cells
    it had, changed only where the call wrote) and makes the length
    required. *)
Theorem set_str_into_slack L pcs cs offset str attr rep L' codes :
  L !! pcs = Some cs ->
  cs_len cs < cs_size cs ->
  decode_loop 0 str = (codes, true) ->
  let required := (offset - 1) + Z.of_nat (length codes) * optint rep 1 in
  cs_len cs < required <= cs_size cs ->
  Cset_str pcs offset str attr rep L = Return tt L' ->
  exists cs',
    L' !! pcs = Some cs' /\
    cs_size cs' = cs_size cs /\
    length (cs_str cs') = length (cs_str cs) /\
    cs_len cs' = required /\
    (forall j, (j < Z.to_nat (offset - 1) \/
                Z.to_nat (offset - 1) + Z.to_nat (optint rep 1) * length codes <= j)%nat ->
       cs_str cs' !! j = cs_str cs !! j).
Proof.
  intros Hcs Hslack Hdec required Hreq Hrun.
  destruct (Cset_str_Return _ _ _ _ _ _ _ _ Hcs Hrun)
    as (codes' & p & cells & _ & _ & Hdec' & _ & _ & Hfill & ->).
  rewrite Hdec in Hdec'. injection Hdec' as <-.
  cbv zeta in Hfill.
  replace (Z.of_nat (length codes) * optint rep 1 + (offset - 1))
    with required in * by (unfold required; lia).
  assert (Hgrow : (cs_size cs <? required) = false) by (apply Z.ltb_ge; lia).
  assert (Hlen : (cs_len cs <? required) = true) by (apply Z.ltb_lt; lia).
  rewrite Hgrow in Hfill. rewrite Hgrow, Hlen.
  apply fill_rep_Some in Hfill as (Hl & _ & _ & Hout).
  eexists. split; [apply lookup_insert_eq|]. cbn [cs_len cs_size cs_str].
  repeat split; auto.
Qed.

Lemma to_int_len cs : chstr_wf cs -> to_int (cs_len cs) = cs_len cs.
Proof.
  intros Hwf. apply to_int_small.
  pose proof (wf_len_pos _ Hwf). pose proof (wf_len_int _ Hwf).
  unfold INT_MIN, INT_MAX. lia.
Qed.

(** [Cset_ch] on a buffer that satisfies the invariant. *)
Lemma Cset_ch_run L pcs cs offset ch attr rep :
  L !! pcs = Some cs ->
  chstr_wf cs ->
  Cset_ch pcs offset ch attr rep L =
    if (0 <? offset) && (offset <=? cs_len cs) then
      if (0 <? optint rep 1) && (optint rep 1 <=? cs_len cs - offset + 1) then
        match set_ch_loop (Z.to_nat (optint rep 1)) (bool_decide (is_Some attr))
                (optint attr A_NORMAL) ch (Z.to_nat (offset - 1)) (cs_str cs) with
        | Some cells => Return tt (<[pcs := Chstr (cs_len cs) (cs_size cs) cells]> L)
        | None => Undefined
        end
      else Raise (ArgError 5 "bad rep") L
    else Raise (ArgError 2 "bad index") L.
Proof.
  intros Hcs Hwf.
  unfold Cset_ch, bind, checkchstr, luaL_argcheck, luaL_argerror, ret, update, undefined.
  rewrite Hcs, (to_int_len _ Hwf).
  destruct ((0 <? offset) && (offset <=? cs_len cs)); [|reflexivity].
  destruct ((0 <? optint rep 1) && (optint rep 1 <=? cs_len cs - offset + 1));
    [|reflexivity].
  destruct (set_ch_loop _ _ _ _ _ _); reflexivity.
Qed.

(** [Cget] on a buffer that satisfies the invariant. *)
Lemma Cget_run L pcs cs offset :
  L !! pcs = Some cs ->
  chstr_wf cs ->
  Cget pcs offset L =
    if (0 <? offset) && (offset <=? cs_len cs) then
      match cs_str cs !! Z.to_nat (offset - 1) with
      | Some c => Return (cc_chars0 c, Z.land (cc_attr c) A_ATTRIBUTES,
                          Z.land (cc_attr c) A_COLOR) L
      | None => Undefined
      end
    else Raise (ArgError 2 "index range: [1 .. cs:len()]") L.
Proof.
  intros Hcs Hwf.
  unfold Cget, bind, checkchstr, luaL_argcheck, luaL_argerror, ret, undefined.
  rewrite Hcs, (to_int_len _ Hwf).
  destruct ((0 <? offset) && (offset <=? cs_len cs)); [|reflexivity].
  destruct (cs_str cs !! Z.to_nat (offset - 1)); reflexivity.
Qed.

Lemma optint_rep_default : optint None 1 = 1.
Proof. reflexivity. Qed.

(** [Cset_ch] with its arguments in range: it returns, and writes the cells
    [offset - 1 .. offset + rep - 2] only. *)
Lemma Cset_ch_in_range L pcs cs offset ch attr rep :
  L !! pcs = Some cs ->
  chstr_wf cs ->
  1 <= offset <= cs_len cs ->
  1 <= optint rep 1 <= cs_len cs - offset + 1 ->
  exists cs',
    Cset_ch pcs offset ch attr rep L = Return tt (<[pcs := cs']> L) /\
    cs_len cs' = cs_len cs /\ cs_size cs' = cs_size cs /\
    length (cs_str cs') = length (cs_str cs) /\
    (forall j, (Z.to_nat (offset - 1) <= j
                < Z.to_nat (offset - 1) + Z.to_nat (optint rep 1))%nat ->
       exists old, cs_str cs !! j = Some old /\
         cs_str cs' !! j
         = Some (Cchar (match attr with
                        | Some a => to_attr_t a
                        | None => cc_attr old
                        end) ch 0)) /\
    (forall j, (j < Z.to_nat (offset - 1) \/
                Z.to_nat (offset - 1) + Z.to_nat (optint rep 1) <= j)%nat ->
       cs_str cs' !! j = cs_str cs !! j).
Proof.
  intros Hcs Hwf Hoff Hrep. rewrite (Cset_ch_run _ _ _ _ _ _ _ Hcs Hwf).
  replace ((0 <? offset) && (offset <=? cs_len cs)) with true
    by (symmetry; apply andb_true_iff; rewrite Z.ltb_lt, Z.leb_le; lia).
  replace ((0 <? optint rep 1) && (optint rep 1 <=? cs_len cs - offset + 1)) with true
    by (symmetry; apply andb_true_iff; rewrite Z.ltb_lt, Z.leb_le; lia).
  destruct (set_ch_loop_spec (bool_decide (is_Some attr)) (optint attr A_NORMAL)
              ch (Z.to_nat (optint rep 1)) (Z.to_nat (offset - 1)) (cs_str cs))
    as (cells & -> & Hl & Hin & Hout).
  { rewrite (wf_block _ Hwf). pose proof (wf_len_size _ Hwf).
    unfold CHSTR_CELLS. lia. }
  exists (Chstr (cs_len cs) (cs_size cs) cells). cbn [cs_len cs_size cs_str].
  repeat split; auto.
  intros j Hj. destruct (Hin j Hj) as (old & Hold & Hnew).
  exists old. split; [exact Hold|]. rewrite Hnew.
  destruct attr; reflexivity.
Qed.

(** C8: set_ch raises the argument error of the offset when the offset is
    outside [1, length], and that of the repeat count when the count is
    outside [1, length - offset + 1], the state being as it was; otherwise it
    returns, length, capacity and the size of the block are as they were, the
    cells offset .. offset + repeat - 1 hold ch, with the attribute of the call
    or, when none is given, the attribute each cell had, and the other cells
    are as they were. *)
Theorem set_ch_bounded L pcs cs offset ch attr rep :
  L !! pcs = Some cs ->
  chstr_wf cs ->
  let r := optint rep 1 in
  let first := Z.to_nat (offset - 1) in
  (~ 1 <= offset <= cs_len cs ->
     Cset_ch pcs offset ch attr rep L = Raise (ArgError 2 "bad index") L) /\
  (1 <= offset <= cs_len cs -> ~ 1 <= r <= cs_len cs - offset + 1 ->
     Cset_ch pcs offset ch attr rep L = Raise (ArgError 5 "bad rep") L) /\
  (1 <= offset <= cs_len cs -> 1 <= r <= cs_len cs - offset + 1 ->
     exists cs',
       Cset_ch pcs offset ch attr rep L = Return tt (<[pcs := cs']> L) /\
       cs_len cs' = cs_len cs /\ cs_size cs' = cs_size cs /\
       length (cs_str cs') = length (cs_str cs) /\
       (forall j, (first <= j < first + Z.to_nat r)%nat ->
          exists old, cs_str cs !! j = Some old /\
            cs_str cs' !! j
            = Some (Cchar (match attr with
                           | Some a => to_attr_t a
                           | None => cc_attr old
                           end) ch 0)) /\
       (forall j, (j < first \/ first + Z.to_nat r <= j)%nat ->
          cs_str cs' !! j = cs_str cs !! j)).
Proof.
  intros Hcs Hwf. cbv zeta. split; [|split].
  - intros Hoff. rewrite (Cset_ch_run _ _ _ _ _ _ _ Hcs Hwf).
    destruct ((0 <? offset) && (offset <=? cs_len cs)) eqn:E; [|reflexivity].
    apply andb_true_iff in E as [?%Z.ltb_lt ?%Z.leb_le]. lia.
  - intros Hoff Hrep. rewrite (Cset_ch_run _ _ _ _ _ _ _ Hcs Hwf).
    replace ((0 <? offset) && (offset <=? cs_len cs)) with true
      by (symmetry; apply andb_true_iff; rewrite Z.ltb_lt, Z.leb_le; lia).
    destruct ((0 <? optint rep 1) && (optint rep 1 <=? cs_len cs - offset + 1)) eqn:E;
      [|reflexivity].
    apply andb_true_iff in E as [?%Z.ltb_lt ?%Z.leb_le]. lia.
  - apply Cset_ch_in_range; assumption.
Qed.

(** C5: on a buffer and an offset o with 1 <= o <= length, set_ch (buf, o,
    ch, attr) returns, and get (buf, o) then returns ch, attr masked by the
    style mask and attr masked by the colour mask (the masks being 32-bit
    values, as the attribute of a cell is). *)
Theorem set_ch_get L pcs cs o ch attr :
  L !! pcs = Some cs ->
  chstr_wf cs ->
  1 <= o <= cs_len cs ->
  0 <= A_ATTRIBUTES <= UINT_MAX ->
  0 <= A_COLOR <= UINT_MAX ->
  exists L',
    Cset_ch pcs o ch (Some attr) None L = Return tt L' /\
    Cget pcs o L' = Return (ch, Z.land attr A_ATTRIBUTES, Z.land attr A_COLOR) L'.
Proof.
  intros Hcs Hwf Ho Hstyle Hcolor.
  destruct (Cset_ch_in_range L pcs cs o ch (Some attr) None Hcs Hwf)
    as (cs' & Hrun & Hlen & Hsize & Hblock & Hin & _);
    [exact Ho | rewrite optint_rep_default; lia |].
  exists (<[pcs := cs']> L). split; [exact Hrun|].
  assert (Hwf' : chstr_wf cs').
  { destruct Hwf. split; congruence. }
  rewrite (Cget_run _ pcs cs' o (lookup_insert_eq _ _ _) Hwf'), Hlen.
  replace ((0 <? o) && (o <=? cs_len cs)) with true
    by (symmetry; apply andb_true_iff; rewrite Z.ltb_lt, Z.leb_le; lia).
  destruct (Hin (Z.to_nat (o - 1))) as (old & _ & ->).
  { rewrite optint_rep_default. lia. }
  cbn [cc_chars0 cc_attr]. rewrite !land_to_attr_t by assumption. reflexivity.
Qed.

(** *** Construction *)

(** [chstr_new] on a text that decodes: the length is the number of codes and
    the size is the number of bytes, each through its conversion to
    [unsigned int]. *)
Lemma chstr_new_decoded L str attr codes :
  str <> [] ->
  decode_loop 0 str = (codes, true) ->
  Z.of_nat (length codes) <= INT_MAX ->
  malloc_ok (ReqChstr (Z.of_nat (length str))) = true ->
  exists cells,
    chstr_new str (Z.of_nat (length str)) attr L
    = Return (Some (Chstr (to_uint (Z.of_nat (length codes)))
                          (to_uint (Z.of_nat (length str))) cells)) L /\
    length cells = CHSTR_CELLS (Z.of_nat (length str)) /\
    (forall k c, codes !! k = Some c ->
       cells !! k = Some (Cchar (to_attr_t attr) c 0)).
Proof.
  intros Hne Hdec Hint Hmalloc. unfold chstr_new.
  replace (Z.of_nat (length str) <? 1) with false
    by (symmetry; apply Z.ltb_ge; destruct str; simpl in *; [congruence|lia]).
  rewrite Hmalloc. unfold negb.
  pose proof (chstr_new_loop_spec utf8_decode attr str 0 0
                (malloc_chstr (Z.of_nat (length str)))) as Hloop.
  rewrite Hdec in Hloop.
  destruct Hloop as (cells & -> & Hl & Hin & _).
  { rewrite length_malloc_chstr. unfold CHSTR_CELLS. lia. }
  rewrite Nat.add_0_l, int_result_small by (unfold INT_MIN; lia).
  exists cells. rewrite Hl, length_malloc_chstr. repeat split; auto.
Qed.

(** [chstr_new] on a text that does not decode: NULL. *)
Lemma chstr_new_malformed L str attr codes :
  decode_loop 0 str = (codes, false) ->
  chstr_new str (Z.of_nat (length str)) attr L = Return None L.
Proof.
  intros Hdec. unfold chstr_new.
  destruct (Z.of_nat (length str) <? 1); [reflexivity|].
  destruct (malloc_ok _); [|reflexivity]. unfold negb.
  pose proof (chstr_new_loop_spec utf8_decode attr str 0 0
                (malloc_chstr (Z.of_nat (length str)))) as Hloop.
  rewrite Hdec in Hloop. rewrite Hloop; [reflexivity|].
  rewrite length_malloc_chstr. unfold CHSTR_CELLS. lia.
Qed.

(** The constructor on a malformed text raises and makes no userdata. *)
Lemma create_chstr_malformed L narg str attr codes :
  decode_loop 0 str = (codes, false) ->
  create_chstr narg (LString str) attr L = Raise (Error "create wstr failed!") L.
Proof.
  intros Hdec. unfold create_chstr, bind.
  rewrite (chstr_new_malformed _ _ _ _ Hdec). reflexivity.
Qed.

Lemma chstr_new_by_size_run L len :
  1 <= len <= INT_MAX ->
  malloc_ok (ReqChstr len) = true ->
  exists cells,
    chstr_new_by_size len L = Return (Some (Chstr len len cells)) L /\
    length cells = CHSTR_CELLS len /\
    (forall j, (j < Z.to_nat len)%nat -> cells !! j = Some (Cchar A_NORMAL 32 0)).
Proof.
  intros Hlen Hmalloc. unfold chstr_new_by_size.
  replace (len <? 1) with false by (symmetry; apply Z.ltb_ge; lia).
  rewrite Hmalloc. unfold negb.
  destruct (blank_loop_spec A_NORMAL (Z.to_nat len) 0 (malloc_chstr len))
    as (cells & -> & Hl & Hin & _).
  { rewrite length_malloc_chstr. unfold CHSTR_CELLS. lia. }
  rewrite to_uint_small by (unfold INT_MAX, UINT_MAX in *; lia).
  exists cells. rewrite Hl, length_malloc_chstr. repeat split; auto.
  intros j Hj. apply Hin. lia.
Qed.

Lemma fresh_userdata (L : lua_State) : L !! new_userdata L = None.
Proof. unfold new_userdata. apply not_elem_of_dom, is_fresh. Qed.

(** C6: for n >= 1 (an int), new_blank (n), when its block is granted,
    returns a buffer of length n and capacity n whose cells at the offsets
    1 .. n read back through get as U+0020 with the style bits and the colour
    bits of NORMAL; for n < 1 it raises the argument error and the state is
    as it was. *)
Theorem new_blank_cells L narg n attr :
  (n < 1 ->
     create_chstr narg (LNumber n) attr L = Raise (ArgError narg "bad len") L) /\
  (1 <= n <= INT_MAX -> malloc_ok (ReqChstr n) = true ->
     exists cs,
       let ud := new_userdata L in
       let L' := <[ud := cs]> L in
       create_chstr narg (LNumber n) attr L = Return ud L' /\
       L !! ud = None /\
       cs_len cs = n /\ cs_size cs = n /\
       (forall o, 1 <= o <= n ->
          Cget ud o L' = Return (32, Z.land A_NORMAL A_ATTRIBUTES,
                                 Z.land A_NORMAL A_COLOR) L')).
Proof.
  split.
  - intros Hn. unfold create_chstr, bind, luaL_argcheck, luaL_argerror.
    replace (0 <? n) with false by (symmetry; apply Z.ltb_ge; lia). reflexivity.
  - intros Hn Hmalloc.
    destruct (chstr_new_by_size_run L n Hn Hmalloc) as (cells & Hrun & Hl & Hin).
    exists (Chstr n n cells). cbv zeta. cbn [cs_len cs_size].
    split; [|split; [apply fresh_userdata|]].
    + unfold create_chstr, bind, luaL_argcheck, ret.
      replace (0 <? n) with true by (symmetry; apply Z.ltb_lt; lia).
      rewrite Hrun. reflexivity.
    + repeat split; auto. intros o Ho.
      assert (Hwf : chstr_wf (Chstr n n cells)).
      { split; cbn [cs_len cs_size cs_str]; unfold INT_MAX in *; auto; lia. }
      rewrite (Cget_run _ _ _ o (lookup_insert_eq _ _ _) Hwf). cbn [cs_len cs_str].
      replace ((0 <? o) && (o <=? n)) with true
        by (symmetry; apply andb_true_iff; rewrite Z.ltb_lt, Z.leb_le; lia).
      rewrite Hin by lia. reflexivity.
Qed.

(** C2, amended: for a text that is not empty, decodes, has fewer than 2^32
    bytes and at most INT_MAX code points, new_from_text, when its block is
    granted, returns a buffer whose length is the number of code points and
    whose capacity is the number of bytes of the text, so that the length is
    at most the capacity; the cell of each code point holds it with the
    attribute of the call. *)
Theorem new_from_text_length_capacity L narg str attr codes :
  str <> [] ->
  decode_loop 0 str = (codes, true) ->
  Z.of_nat (length str) <= UINT_MAX ->
  Z.of_nat (length codes) <= INT_MAX ->
  malloc_ok (ReqChstr (Z.of_nat (length str))) = true ->
  exists cs,
    let ud := new_userdata L in
    create_chstr narg (LString str) attr L = Return ud (<[ud := cs]> L) /\
    L !! ud = None /\
    cs_len cs = Z.of_nat (length codes) /\
    cs_size cs = Z.of_nat (length str) /\
    cs_len cs <= cs_size cs /\
    (forall k c, codes !! k = Some c ->
       cs_str cs !! k = Some (Cchar (to_attr_t (optint attr A_NORMAL)) c 0)).
Proof.
  intros Hne Hdec Hbytes Hcodes Hmalloc.
  destruct (chstr_new_decoded L str (optint attr A_NORMAL) codes Hne Hdec Hcodes Hmalloc)
    as (cells & Hrun & Hl & Hin).
  pose proof (decode_loop_length_le _ _ _ _ Hdec) as Hle.
  rewrite !to_uint_small in Hrun by (unfold INT_MAX, UINT_MAX in *; lia).
  eexists. cbv zeta. split.
  - unfold create_chstr, bind. rewrite Hrun. reflexivity.
  - cbn [cs_len cs_size cs_str]. repeat split; auto using fresh_userdata. lia.
Qed.

(** *** Ownership: a call on one userdata leaves the others alone *)

Ltac run_cases :=
  repeat match goal with
         | |- context [match ?x with _ => _ end] =>
           lazymatch x with
           | context [match _ with _ => _ end] => fail
           | _ => destruct x eqn:?; cbv beta iota
           end
         end.

Lemma Cset_ch_frame L a b offset ch attr rep L' :
  a <> b ->
  state_after (Cset_ch a offset ch attr rep L) = Some L' ->
  L' !! b = L !! b.
Proof.
  intros Hab.
  unfold Cset_ch, bind, checkchstr, luaL_argcheck, luaL_argerror, ret, update,
    undefined, state_after.
  run_cases; intros; simplify_eq; rewrite ?lookup_insert_ne by done; reflexivity.
Qed.

Lemma Cset_str_frame L a b offset str attr rep L' :
  a <> b ->
  state_after (Cset_str a offset str attr rep L) = Some L' ->
  L' !! b = L !! b.
Proof.
  intros Hab.
  unfold Cset_str, bind, checkchstr, luaL_argcheck, luaL_argerror, luaL_error,
    free_code_array, ret, update, undefined, state_after.
  run_cases; intros; simplify_eq; rewrite ?lookup_insert_ne by done; reflexivity.
Qed.

(** A call of [Cset_str] that raises leaves the state as it was. *)
Lemma Cset_str_Raise L pcs offset str attr rep e L' :
  Cset_str pcs offset str attr rep L = Raise e L' -> L' = L.
Proof.
  unfold Cset_str, bind, checkchstr, luaL_argcheck, luaL_argerror, luaL_error,
    free_code_array, ret, update, undefined.
  run_cases; intros; simplify_eq; reflexivity.
Qed.

(** *** Cdup *)

Lemma Cdup_run L pcs cs :
  L !! pcs = Some cs ->
  chstr_wf cs ->
  malloc_ok (ReqChstr (cs_len cs)) = true ->
  Cdup pcs L =
    let ud := new_userdata L in
    Return ud (<[ud := Chstr (cs_len cs) (cs_len cs)
                         (take (CHSTR_CELLS (cs_len cs)) (cs_str cs))]> L).
Proof.
  intros Hcs Hwf Hmalloc. destruct Hwf as [Hpos Hsize Hint Huint Hblock].
  unfold Cdup, bind, checkchstr, lua_newuserdata. rewrite Hcs.
  rewrite to_size_t_small by (unfold UINT_MAX; lia).
  rewrite Hmalloc. unfold negb.
  rewrite to_uint_small by (unfold UINT_MAX; lia).
  destruct (decide (CHSTR_CELLS (cs_len cs) <= length (cs_str cs))%nat) as [|Hn];
    [reflexivity|].
  exfalso. apply Hn. rewrite Hblock. unfold CHSTR_CELLS. lia.
Qed.

(** C7: dup (buf), when its block is granted, returns a new buffer whose
    length and capacity are the length of buf and whose cells at the offsets
    1 .. length are those of buf; and in every later state, a set_ch or a
    set_str on one of the two, whether it returns or raises, leaves the other
    (its length, its capacity and its cells) as it was. *)
Theorem dup_independent L pcs cs :
  L !! pcs = Some cs ->
  chstr_wf cs ->
  malloc_ok (ReqChstr (cs_len cs)) = true ->
  exists ud ncs,
    Cdup pcs L = Return ud (<[ud := ncs]> L) /\
    L !! ud = None /\ ud <> pcs /\
    cs_len ncs = cs_len cs /\ cs_size ncs = cs_len cs /\
    (forall j, (j < Z.to_nat (cs_len cs))%nat -> cs_str ncs !! j = cs_str cs !! j) /\
    (forall (a b : handle) (L1 L2 : lua_State),
       (a = ud /\ b = pcs) \/ (a = pcs /\ b = ud) ->
       (forall offset ch attr rep,
          state_after (Cset_ch a offset ch attr rep L1) = Some L2 ->
          L2 !! b = L1 !! b) /\
       (forall offset str attr rep,
          state_after (Cset_str a offset str attr rep L1) = Some L2 ->
          L2 !! b = L1 !! b)).
Proof.
  intros Hcs Hwf Hmalloc.
  pose proof (fresh_userdata L) as Hfresh.
  assert (Hne : new_userdata L <> pcs).
  { intros E. rewrite E, Hcs in Hfresh. discriminate. }
  eexists (new_userdata L), _. split; [apply (Cdup_run _ _ _ Hcs Hwf Hmalloc)|].
  cbn [cs_len cs_size cs_str].
  split; [exact Hfresh|]. split; [exact Hne|].
  split; [reflexivity|]. split; [reflexivity|]. split.
  - intros j Hj. apply lookup_take_lt. unfold CHSTR_CELLS. lia.
  - intros a b L1 L2 Hab.
    assert (a <> b) by (destruct Hab as [[-> ->]|[-> ->]]; congruence).
    split; intros; [eapply Cset_ch_frame | eapply Cset_str_frame]; eauto.
Qed.

(** [Cset_str] on a text that does not decode: [code_array] has moved past
    the start of its array when it is freed. *)
Lemma Cset_str_malformed L pcs cs offset str attr rep codes :
  L !! pcs = Some cs ->
  0 < offset <= to_int (cs_len cs) ->
  0 < optint rep 1 ->
  malloc_ok (ReqInts (Z.of_nat (length str))) = true ->
  decode_loop 0 str = (codes, false) ->
  Cset_str pcs offset str attr rep L = Undefined.
Proof.
  intros Hcs Hoff Hrep Hmalloc Hdec.
  unfold Cset_str, bind, checkchstr, luaL_argcheck, ret. rewrite Hcs.
  replace ((0 <? offset) && (offset <=? to_int (cs_len cs))) with true
    by (symmetry; apply andb_true_iff; rewrite Z.ltb_lt, Z.leb_le; lia).
  replace (0 <? optint rep 1) with true by (symmetry; apply Z.ltb_lt; lia).
  rewrite Hmalloc, Hdec. unfold negb.
  destruct (int_result (Z.of_nat (length codes))) as [d|] eqn:Hd; [|reflexivity].
  apply int_result_Some in Hd as [-> _]. unfold free_code_array.
  replace (Z.of_nat (length codes) + 1 =? 0) with false
    by (symmetry; apply Z.eqb_neq; lia).
  reflexivity.
Qed.

(** *** The invariant is kept *)

Lemma state_wf_insert L ud cs :
  state_wf L -> chstr_wf cs -> state_wf (<[ud := cs]> L).
Proof.
  intros HL Hcs ud' cs'. destruct (decide (ud = ud')) as [->|Hne].
  - rewrite lookup_insert_eq. intros [= <-]. exact Hcs.
  - rewrite lookup_insert_ne by exact Hne. apply HL.
Qed.

Lemma create_chstr_wf L narg arg attr L' :
  state_wf L ->
  fits (Call_new arg attr) ->
  state_after (create_chstr narg arg attr L) = Some L' ->
  state_wf L'.
Proof.
  intros HL Hfit. unfold create_chstr, bind. destruct arg as [str|n|]; simpl in Hfit.
  - unfold chstr_new.
    destruct (Z.of_nat (length str) <? 1) eqn:Hlen; [intros [= <-]; exact HL|].
    destruct (malloc_ok _); unfold negb; [|intros [= <-]; exact HL].
    apply Z.ltb_ge in Hlen.
    pose proof (chstr_new_loop_spec utf8_decode (optint attr A_NORMAL) str 0 0
                  (malloc_chstr (Z.of_nat (length str)))) as Hloop.
    destruct (decode_loop 0 str) as [codes [|]] eqn:Hdec.
    + destruct Hloop as (cells & -> & Hl & _).
      { rewrite length_malloc_chstr. unfold CHSTR_CELLS. lia. }
      rewrite Nat.add_0_l.
      destruct (int_result (Z.of_nat (length codes))) as [i|] eqn:Hi; [|discriminate].
      apply int_result_Some in Hi as [-> Hi].
      intros [= <-]. apply state_wf_insert; [exact HL|].
      pose proof (decode_loop_length_le _ _ _ _ Hdec).
      assert (codes <> []) as Hne.
      { apply (decode_loop_nonempty utf8_decode str); [|exact Hdec].
        destruct str; simpl in *; [lia|discriminate]. }
      assert (1 <= Z.of_nat (length codes)) by (destruct codes; simpl in *; [congruence|lia]).
      rewrite !to_uint_small by (unfold INT_MAX, UINT_MAX in *; lia).
      split; cbn [cs_len cs_size cs_str]; unfold INT_MAX, UINT_MAX in *; try lia.
      rewrite Hl. apply length_malloc_chstr.
    + rewrite Hloop by (rewrite length_malloc_chstr; unfold CHSTR_CELLS; lia).
      intros [= <-]. exact HL.
  - unfold luaL_argcheck, luaL_argerror, ret, chstr_new_by_size.
    destruct (0 <? n) eqn:Hpos; [|intros [= <-]; exact HL].
    apply Z.ltb_lt in Hpos.
    replace (n <? 1) with false by (symmetry; apply Z.ltb_ge; lia).
    destruct (malloc_ok _); unfold negb; [|intros [= <-]; exact HL].
    destruct (blank_loop_spec A_NORMAL (Z.to_nat n) 0 (malloc_chstr n))
      as (cells & -> & Hl & _).
    { rewrite length_malloc_chstr. unfold CHSTR_CELLS. lia. }
    intros [= <-]. apply state_wf_insert; [exact HL|].
    rewrite !to_uint_small by (unfold INT_MAX, UINT_MAX in *; lia).
    split; cbn [cs_len cs_size cs_str]; unfold INT_MAX, UINT_MAX in *; try lia.
    rewrite Hl. apply length_malloc_chstr.
  - intros [= <-]. exact HL.
Qed.

Lemma Cset_ch_wf L pcs offset ch attr rep L' :
  state_wf L ->
  state_after (Cset_ch pcs offset ch attr rep L) = Some L' ->
  state_wf L'.
Proof.
  intros HL. destruct (L !! pcs) as [cs|] eqn:Hcs.
  - pose proof (HL _ _ Hcs) as Hwf.
    rewrite (Cset_ch_run _ _ _ _ _ _ _ Hcs Hwf).
    destruct ((0 <? offset) && (offset <=? cs_len cs)) eqn:Hoff;
      [|intros [= <-]; exact HL].
    destruct ((0 <? optint rep 1) && (optint rep 1 <=? cs_len cs - offset + 1)) eqn:Hrep;
      [|intros [= <-]; exact HL].
    apply andb_true_iff in Hoff as [?%Z.ltb_lt ?%Z.leb_le].
    apply andb_true_iff in Hrep as [?%Z.ltb_lt ?%Z.leb_le].
    destruct (set_ch_loop_spec (bool_decide (is_Some attr)) (optint attr A_NORMAL) ch
                (Z.to_nat (optint rep 1)) (Z.to_nat (offset - 1)) (cs_str cs))
      as (cells & -> & Hl & _).
    { rewrite (wf_block _ Hwf). pose proof (wf_len_size _ Hwf).
      unfold CHSTR_CELLS. lia. }
    intros [= <-]. apply state_wf_insert; [exact HL|].
    destruct Hwf. split; cbn [cs_len cs_size cs_str]; congruence.
  - unfold Cset_ch, bind, checkchstr. rewrite Hcs. intros [= <-]. exact HL.
Qed.

Lemma Cset_str_wf L pcs offset str attr rep L' :
  state_wf L ->
  state_after (Cset_str pcs offset str attr rep L) = Some L' ->
  state_wf L'.
Proof.
  intros HL.
  destruct (Cset_str pcs offset str attr rep L) as [[] L1|e L1|] eqn:Hrun;
    [| |discriminate]; intros [= <-].
  - destruct (L !! pcs) as [cs|] eqn:Hcs.
    2:{ unfold Cset_str, bind, checkchstr in Hrun. rewrite Hcs in Hrun. discriminate. }
    pose proof (HL _ _ Hcs) as Hwf.
    destruct (Cset_str_Return _ _ _ _ _ _ _ _ Hcs Hrun)
      as (codes & p & cells & Hoff & Hrep & _ & Hne & Hreq & Hfill & ->).
    cbv zeta in *. apply state_wf_insert; [exact HL|].
    apply fill_rep_Some in Hfill as (Hl & _).
    assert (1 <= Z.of_nat (length codes))
      by (destruct codes; simpl in *; [congruence|lia]).
    set (required := Z.of_nat (length codes) * optint rep 1 + (offset - 1)) in *.
    assert (1 <= required) by (unfold required; nia).
    destruct Hwf as [Hpos Hsize Hint Huint Hblock].
    split; cbn [cs_len cs_size cs_str]; rewrite ?Hl;
      destruct (cs_size cs <? required) eqn:Hgrow;
      destruct (cs_len cs <? required) eqn:Hlen;
      rewrite ?Z.ltb_lt, ?Z.ltb_ge in Hgrow, Hlen;
      unfold INT_MAX, UINT_MAX in *; try lia; try exact Hblock;
      apply realloc_chstr_grow; rewrite Hblock; unfold CHSTR_CELLS; lia.
  - apply Cset_str_Raise in Hrun as ->. exact HL.
Qed.

Lemma Cdup_wf L pcs L' :
  state_wf L -> state_after (Cdup pcs L) = Some L' -> state_wf L'.
Proof.
  intros HL. destruct (L !! pcs) as [cs|] eqn:Hcs.
  - pose proof (HL _ _ Hcs) as Hwf.
    destruct (malloc_ok (ReqChstr (cs_len cs))) eqn:Hmalloc.
    + rewrite (Cdup_run _ _ _ Hcs Hwf Hmalloc). intros [= <-].
      apply state_wf_insert; [exact HL|].
      destruct Hwf as [Hpos Hsize Hint Huint Hblock].
      split; cbn [cs_len cs_size cs_str]; unfold INT_MAX, UINT_MAX in *; try lia.
      rewrite length_take, Hblock. unfold CHSTR_CELLS. lia.
    + unfold Cdup, bind, checkchstr. rewrite Hcs.
      rewrite to_size_t_small, Hmalloc; [intros [= <-]; exact HL|].
      destruct Hwf. unfold UINT_MAX. lia.
  - unfold Cdup, bind, checkchstr. rewrite Hcs. intros [= <-]. exact HL.
Qed.

Lemma Cget_state L pcs offset L' :
  state_after (Cget pcs offset L) = Some L' -> L' = L.
Proof.
  unfold Cget, bind, checkchstr, luaL_argcheck, luaL_argerror, ret, undefined, state_after.
  run_cases; intros; simplify_eq; reflexivity.
Qed.

Lemma Clen_state L pcs L' :
  state_after (Clen pcs L) = Some L' -> L' = L.
Proof.
  unfold Clen, bind, checkchstr, ret, state_after.
  run_cases; intros; simplify_eq; reflexivity.
Qed.

Lemma Csize_state L pcs L' :
  state_after (Csize pcs L) = Some L' -> L' = L.
Proof.
  unfold Csize, bind, checkchstr, ret, state_after.
  run_cases; intros; simplify_eq; reflexivity.
Qed.

(** Every call whose constructor arguments fit their C types keeps the
    invariant of the state, whether it returns or raises. *)
Lemma run_wf c L L' :
  state_wf L ->
  fits c ->
  run malloc_ok indeterminate utf8_decode A_NORMAL A_ATTRIBUTES A_COLOR c L = Some L' ->
  state_wf L'.
Proof.
  intros HL Hfit. destruct c; cbn [run].
  - apply create_chstr_wf; assumption.
  - apply Cset_str_wf; assumption.
  - apply Cset_ch_wf; assumption.
  - intros ->%Cget_state. exact HL.
  - intros ->%Clen_state. exact HL.
  - intros ->%Csize_state. exact HL.
  - apply Cdup_wf; assumption.
Qed.

(** [Cset_str] with its arguments in range, a text that decodes and its
    allocations granted: the call returns. *)
Lemma Cset_str_in_range L pcs cs offset str attr rep codes :
  L !! pcs = Some cs ->
  chstr_wf cs ->
  1 <= offset <= cs_len cs ->
  0 < optint rep 1 ->
  decode_loop 0 str = (codes, true) ->
  codes <> [] ->
  Z.of_nat (length codes) * optint rep 1 + (offset - 1) <= INT_MAX ->
  malloc_ok (ReqInts (Z.of_nat (length str))) = true ->
  (cs_size cs < Z.of_nat (length codes) * optint rep 1 + (offset - 1) ->
   malloc_ok (ReqChstr (Z.of_nat (length codes) * optint rep 1 + (offset - 1))) = true) ->
  exists L', Cset_str pcs offset str attr rep L = Return tt L'.
Proof.
  intros Hcs Hwf Hoff Hrep Hdec Hne Hreq Hints Hblock.
  assert (1 <= Z.of_nat (length codes))
    by (destruct codes; simpl in *; [congruence|lia]).
  set (required := Z.of_nat (length codes) * optint rep 1 + (offset - 1)) in *.
  assert (Z.of_nat (length codes) <= Z.of_nat (length codes) * optint rep 1) by nia.
  unfold Cset_str, bind, checkchstr, luaL_argcheck, ret, update, free_code_array.
  rewrite Hcs, (to_int_len _ Hwf).
  replace ((0 <? offset) && (offset <=? cs_len cs)) with true
    by (symmetry; apply andb_true_iff; rewrite Z.ltb_lt, Z.leb_le; lia).
  replace (0 <? optint rep 1) with true by (symmetry; apply Z.ltb_lt; lia).
  rewrite Hints, Hdec. unfold negb.
  rewrite int_result_small by (unfold INT_MIN, INT_MAX in *; lia).
  replace (Z.of_nat (length codes) <? 1) with false by (symmetry; apply Z.ltb_ge; lia).
  rewrite int_result_small by (unfold INT_MIN, INT_MAX in *; lia).
  rewrite int_result_small by (unfold INT_MIN, INT_MAX in *; lia).
  fold required. rewrite Z.sub_diag.
  rewrite to_size_t_small by (unfold INT_MAX, UINT_MAX in *; lia).
  change (0 =? 0) with true. cbv beta iota.
  destruct Hwf as [Hpos Hsize Hint Huint Hcells].
  assert (Hcount : Z.of_nat (Z.to_nat (optint rep 1) * length codes)
                   = Z.of_nat (length codes) * optint rep 1)
    by (rewrite Nat2Z.inj_mul, Z2Nat.id by lia; lia).
  destruct (cs_size cs <? required) eqn:Hgrow.
  - apply Z.ltb_lt in Hgrow. rewrite (Hblock Hgrow).
    cbv beta iota delta [cs_len cs_size cs_str].
    fold (cs_len cs) (cs_size cs) (cs_str cs).
    destruct (realloc_chstr_grow (cs_str cs) required) as [Hl _].
    { rewrite Hcells. unfold CHSTR_CELLS. lia. }
    destruct (fill_rep_in_range (to_attr_t (optint attr A_NORMAL)) codes
                (Z.to_nat (optint rep 1)) (Z.to_nat (offset - 1))
                (realloc_chstr (cs_str cs) required)) as (p & cells & Hfill).
    { rewrite Hl. unfold CHSTR_CELLS, required. lia. }
    destruct (cs_len cs <? required); cbv beta iota;
      fold (cs_len cs) (cs_size cs) (cs_str cs); rewrite Hfill; eauto.
  - apply Z.ltb_ge in Hgrow.
    cbv beta iota delta [cs_len cs_size cs_str].
    fold (cs_len cs) (cs_size cs) (cs_str cs).
    destruct (fill_rep_in_range (to_attr_t (optint attr A_NORMAL)) codes
                (Z.to_nat (optint rep 1)) (Z.to_nat (offset - 1))
                (cs_str cs)) as (p & cells & Hfill).
    { rewrite Hcells. unfold CHSTR_CELLS, required in *. lia. }
    destruct (cs_len cs <? required); cbv beta iota;
      fold (cs_len cs) (cs_size cs) (cs_str cs); rewrite Hfill; eauto.
Qed.

(** Every buffer of a reachable state satisfies the invariant. *)
Lemma reachable_wf L :
  reachable malloc_ok indeterminate utf8_decode A_NORMAL A_ATTRIBUTES A_COLOR L ->
  state_wf L.
Proof.
  induction 1 as [|c L L' _ IH Hfit Hrun].
  - intros ud cs Hcs. rewrite lookup_empty in Hcs. discriminate.
  - exact (run_wf c L L' IH Hfit Hrun).
Qed.

End Operations.

(** ** The statements on concrete buffers *)

Ltac evaluate := vm_compute; first [reflexivity | discriminate | done].

Lemma decode_smiley rest :
  decode_loop Utf8.utf8_decode 0 (Sample.smiley ++ rest) =
  let '(codes, ok) := decode_loop Utf8.utf8_decode 0 rest in (128512 :: codes, ok).
Proof. reflexivity. Qed.

Lemma decode_smileys n :
  decode_loop Utf8.utf8_decode 0 (mjoin (replicate n Sample.smiley))
  = (replicate n 128512, true).
Proof.
  induction n as [|n IH]; [reflexivity|].
  change (mjoin (replicate (S n) Sample.smiley))
    with (Sample.smiley ++ mjoin (replicate n Sample.smiley)).
  rewrite decode_smiley, IH. reflexivity.
Qed.

Lemma length_smileys n :
  Z.of_nat (length (mjoin (replicate n Sample.smiley))) = 4 * Z.of_nat n.
Proof.
  induction n as [|n IH]; [reflexivity|].
  change (mjoin (replicate (S n) Sample.smiley))
    with (Sample.smiley ++ mjoin (replicate n Sample.smiley)).
  rewrite length_app, Nat2Z.inj_add, IH. change (length Sample.smiley) with 4%nat. lia.
Qed.

Lemma smileys_capacity n :
  Z.of_nat n = 1073741824 ->
  exists ud cs,
    Sample.C__call (LString (mjoin (replicate n Sample.smiley))) None ∅
    = Return ud (<[ud := cs]> ∅) /\
    cs_len cs = 1073741824 /\ cs_size cs = 0 /\
    ~ cs_len cs <= cs_size cs /\ ~ 1 <= cs_size cs.
Proof.
  intros Hn.
  destruct (chstr_new_decoded Sample.malloc_ok Sample.indeterminate Utf8.utf8_decode
              ∅ (mjoin (replicate n Sample.smiley)) (optint None Sample.A_NORMAL)
              (replicate n 128512))
    as (cells & Hrun & _).
  - destruct n; [discriminate|]. discriminate.
  - apply decode_smileys.
  - rewrite length_replicate, Hn. unfold INT_MAX. lia.
  - reflexivity.
  - rewrite length_smileys, length_replicate, Hn in Hrun.
    eexists _, _. split.
    + unfold Sample.C__call, C__call, create_chstr, bind. rewrite length_smileys, Hn.
      rewrite Hrun. reflexivity.
    + cbn [cs_len cs_size].
      change (to_uint 1073741824) with 1073741824.
      change (to_uint (4 * 1073741824)) with 0.
      repeat split; lia.
Qed.

(** C9, the failing input: on a text of 2^32 bytes that decodes into 2^30
    code points, the constructor, its block granted, returns a buffer whose
    size field is 0 and whose length is 2^30: the capacity is below 1 and the
    length exceeds it. *)
Theorem new_from_text_capacity_wraps :
  exists ud cs,
    Sample.C__call (LString Sample.four_gib_text) None ∅
    = Return ud (<[ud := cs]> ∅) /\
    cs_len cs = 1073741824 /\ cs_size cs = 0 /\
    ~ cs_len cs <= cs_size cs /\ ~ 1 <= cs_size cs.
Proof. apply smileys_capacity. apply Z2Nat.id. discriminate. Qed.

(** C3, the failing input: on the text "A\xff" the constructor raises and
    makes no userdata, but set_str on a buffer, its arguments in range and
    its array granted, has no defined outcome: no error is raised. *)
Theorem set_str_malformed_text_undefined :
  Sample.C__call (LString Sample.text_malformed) None Sample.blank_state
  = Raise (Error "create wstr failed!") Sample.blank_state /\
  Sample.Cset_str 1%positive 1 Sample.text_malformed None None Sample.blank_state
  = Undefined.
Proof.
  assert (Hdec : decode_loop Utf8.utf8_decode 0 Sample.text_malformed = ([65], false))
    by reflexivity.
  split.
  - exact (create_chstr_malformed Sample.malloc_ok Sample.indeterminate
             Utf8.utf8_decode Sample.A_NORMAL Sample.blank_state 2
             Sample.text_malformed None [65] Hdec).
  - apply (Cset_str_malformed Sample.malloc_ok Sample.indeterminate Utf8.utf8_decode
             Sample.A_NORMAL Sample.blank_state 1%positive
             (Sample.buffer_of Sample.blank_state 1%positive) 1
             Sample.text_malformed None None [65]);
      [evaluate | split; evaluate | evaluate | evaluate | exact Hdec].
Qed.

(** C2, the counterexample: the buffer of the text "hi," U+4E16 U+754C has
    length 5, the number of code points, and capacity 9, the number of
    bytes. *)
Lemma new_from_text_capacity_counterexample :
  exists ud L cs codes,
    Sample.C__call (LString Sample.hi_world) (Some Sample.A_BOLD) ∅ = Return ud L /\
    L !! ud = Some cs /\
    decode_loop Utf8.utf8_decode 0 Sample.hi_world = (codes, true) /\
    cs_len cs = Z.of_nat (length codes) /\
    cs_size cs <> Z.of_nat (length codes) /\
    cs_len cs <> cs_size cs.
Proof.
  exists 1%positive, Sample.hi_state, Sample.hi_buffer,
    [104; 105; 44; 19990; 30028].
  repeat split; vm_compute; congruence.
Qed.

(** *** The theorems at concrete buffers *)

Lemma hi_buffer_wf : chstr_wf Sample.hi_buffer.
Proof. split; evaluate. Qed.

(** set_str (5, "AB", nil, 3) on the buffer of [hi_world]: required is
    4 + 2 * 3 = 10, above the capacity 9. *)
Lemma set_str_extent_witness :
  exists codes cs',
    decode_loop Utf8.utf8_decode 0 Sample.text_AB = (codes, true) /\
    Sample.hi_grown !! 1%positive = Some cs' /\
    let required := (5 - 1) + Z.of_nat (length codes) * optint (Some 3) 1 in
    (cs_size Sample.hi_buffer < required -> cs_size cs' = required) /\
    (cs_len Sample.hi_buffer < required -> cs_len cs' = required) /\
    (required <= cs_len Sample.hi_buffer ->
       cs_len cs' = cs_len Sample.hi_buffer /\
       cs_size cs' = cs_size Sample.hi_buffer).
Proof.
  apply (set_str_extent Sample.malloc_ok Sample.indeterminate Utf8.utf8_decode
           Sample.A_NORMAL Sample.hi_state 1%positive Sample.hi_buffer
           5 Sample.text_AB None (Some 3)); evaluate.
Defined.

Lemma set_str_cells_witness :
  exists codes cs',
    decode_loop Utf8.utf8_decode 0 Sample.text_AB = (codes, true) /\
    Sample.hi_grown !! 1%positive = Some cs' /\
    let first := Z.to_nat (5 - 1) in
    let count := (Z.to_nat (optint (Some 3%Z) 1) * length codes)%nat in
    (forall k, (k < count)%nat ->
       exists c, codes !! (k mod length codes)%nat = Some c /\
         cs_str cs' !! (first + k)%nat
         = Some (Cchar (to_attr_t (optint None Sample.A_NORMAL)) c 0)) /\
    (forall j,
       (j < length (cs_str Sample.hi_buffer))%nat ->
       (j < first \/ first + count <= j)%nat ->
       cs_str cs' !! j = cs_str Sample.hi_buffer !! j).
Proof.
  apply (set_str_cells Sample.malloc_ok Sample.indeterminate Utf8.utf8_decode
           Sample.A_NORMAL Sample.hi_state 1%positive Sample.hi_buffer
           5 Sample.text_AB None (Some 3));
    [evaluate | exact hi_buffer_wf | evaluate].
Defined.

(** set_str (5, "AB", nil, 2) on the buffer of [hi_world] (length 5,
    capacity 9): required is 4 + 2 * 2 = 8. *)
Lemma set_str_into_slack_witness :
  exists cs',
    Sample.hi_filled !! 1%positive = Some cs' /\
    cs_size cs' = cs_size Sample.hi_buffer /\
    length (cs_str cs') = length (cs_str Sample.hi_buffer) /\
    cs_len cs' = (5 - 1) + Z.of_nat (length [65; 66]) * optint (Some 2) 1 /\
    (forall j, (j < Z.to_nat (5 - 1) \/
                Z.to_nat (5 - 1)
                + Z.to_nat (optint (Some 2%Z) 1) * length [65%Z; 66%Z] <= j)%nat ->
       cs_str cs' !! j = cs_str Sample.hi_buffer !! j).
Proof.
  apply (set_str_into_slack Sample.malloc_ok Sample.indeterminate Utf8.utf8_decode
           Sample.A_NORMAL Sample.hi_state 1%positive Sample.hi_buffer
           5 Sample.text_AB None (Some 2) Sample.hi_filled [65; 66]);
    [evaluate | evaluate | evaluate | split; evaluate | evaluate].
Defined.

(** set_ch (4, U+03BB, nil, 2) on the buffer of [hi_world]: the offset and
    the count are in range. *)
Lemma set_ch_bounded_witness :
  exists cs',
    Sample.Cset_ch 1%positive 4 955 None (Some 2) Sample.hi_state
    = Return tt (<[1%positive := cs']> Sample.hi_state) /\
    cs_len cs' = cs_len Sample.hi_buffer /\
    cs_size cs' = cs_size Sample.hi_buffer /\
    length (cs_str cs') = length (cs_str Sample.hi_buffer) /\
    (forall j, (Z.to_nat (4 - 1) <= j
                < Z.to_nat (4 - 1) + Z.to_nat (optint (Some 2%Z) 1))%nat ->
       exists old, cs_str Sample.hi_buffer !! j = Some old /\
         cs_str cs' !! j
         = Some (Cchar (match @None Z with
                        | Some a => to_attr_t a
                        | None => cc_attr old
                        end) 955 0)) /\
    (forall j, (j < Z.to_nat (4 - 1) \/
                Z.to_nat (4 - 1) + Z.to_nat (optint (Some 2%Z) 1) <= j)%nat ->
       cs_str cs' !! j = cs_str Sample.hi_buffer !! j).
Proof.
  apply (set_ch_bounded Sample.A_NORMAL Sample.hi_state 1%positive
           Sample.hi_buffer 4 955 None (Some 2));
    [evaluate | exact hi_buffer_wf | split; evaluate | split; evaluate].
Defined.

(** set_ch (2, U+03BB, A_BOLD) then get (2) on the buffer of [hi_world]. *)
Lemma set_ch_get_witness :
  exists L',
    Sample.Cset_ch 1%positive 2 955 (Some Sample.A_BOLD) None Sample.hi_state
    = Return tt L' /\
    Sample.Cget 1%positive 2 L'
    = Return (955, Z.land Sample.A_BOLD Sample.A_ATTRIBUTES,
              Z.land Sample.A_BOLD Sample.A_COLOR) L'.
Proof.
  apply (set_ch_get Sample.A_NORMAL Sample.A_ATTRIBUTES Sample.A_COLOR
           Sample.hi_state 1%positive Sample.hi_buffer 2 955 Sample.A_BOLD);
    [evaluate | exact hi_buffer_wf | split; evaluate | split; evaluate
    | split; evaluate].
Defined.

(** [curses.chstr (3)] in the empty state. *)
Lemma new_blank_cells_witness :
  exists cs,
    let ud := new_userdata ∅ in
    let L' := <[ud := cs]> ∅ in
    Sample.C__call (LNumber 3) None ∅ = Return ud L' /\
    (∅ : lua_State) !! ud = None /\
    cs_len cs = 3 /\ cs_size cs = 3 /\
    (forall o, 1 <= o <= 3 ->
       Sample.Cget ud o L'
       = Return (32, Z.land Sample.A_NORMAL Sample.A_ATTRIBUTES,
                 Z.land Sample.A_NORMAL Sample.A_COLOR) L').
Proof.
  apply (new_blank_cells Sample.malloc_ok Sample.indeterminate Utf8.utf8_decode
           Sample.A_NORMAL Sample.A_ATTRIBUTES Sample.A_COLOR ∅ 2 3 None);
    [split; evaluate | evaluate].
Defined.

(** [curses.chstr (hi_world, A_BOLD)] in the empty state. *)
Lemma new_from_text_length_capacity_witness :
  exists cs,
    let ud := new_userdata ∅ in
    Sample.C__call (LString Sample.hi_world) (Some Sample.A_BOLD) ∅
    = Return ud (<[ud := cs]> ∅) /\
    (∅ : lua_State) !! ud = None /\
    cs_len cs = Z.of_nat (length [104; 105; 44; 19990; 30028]) /\
    cs_size cs = Z.of_nat (length Sample.hi_world) /\
    cs_len cs <= cs_size cs /\
    (forall k c, [104; 105; 44; 19990; 30028] !! k = Some c ->
       cs_str cs !! k
       = Some (Cchar (to_attr_t (optint (Some Sample.A_BOLD) Sample.A_NORMAL)) c 0)).
Proof.
  apply (new_from_text_length_capacity Sample.malloc_ok Sample.indeterminate
           Utf8.utf8_decode Sample.A_NORMAL ∅ 2 Sample.hi_world (Some Sample.A_BOLD)
           [104; 105; 44; 19990; 30028]); evaluate.
Defined.

(** [cs:dup ()] on the buffer of [hi_world]. *)
Lemma dup_independent_witness :
  exists ud ncs,
    Sample.Cdup 1%positive Sample.hi_state = Return ud (<[ud := ncs]> Sample.hi_state) /\
    Sample.hi_state !! ud = None /\ ud <> 1%positive /\
    cs_len ncs = cs_len Sample.hi_buffer /\ cs_size ncs = cs_len Sample.hi_buffer /\
    (forall j, (j < Z.to_nat (cs_len Sample.hi_buffer))%nat ->
       cs_str ncs !! j = cs_str Sample.hi_buffer !! j) /\
    (forall (a b : handle) (L1 L2 : lua_State),
       (a = ud /\ b = 1%positive) \/ (a = 1%positive /\ b = ud) ->
       (forall offset ch attr rep,
          state_after (Sample.Cset_ch a offset ch attr rep L1) = Some L2 ->
          L2 !! b = L1 !! b) /\
       (forall offset str attr rep,
          state_after (Sample.Cset_str a offset str attr rep L1) = Some L2 ->
          L2 !! b = L1 !! b)).
Proof.
  apply (dup_independent Sample.malloc_ok Sample.indeterminate Utf8.utf8_decode
           Sample.A_NORMAL Sample.hi_state 1%positive Sample.hi_buffer);
    [evaluate | exact hi_buffer_wf | evaluate].
Defined.

(** ** Further behaviour of the methods *)

Section Methods.

Variable malloc_ok : alloc_request -> bool.
Variable indeterminate : nat -> cchar_t.
Variable utf8_decode : list byte -> option (Z * nat).
Variable A_NORMAL : Z.
Variable A_ATTRIBUTES : Z.
Variable A_COLOR : Z.

Local Abbreviation realloc_chstr := (realloc_chstr indeterminate).
Local Abbreviation decode_loop := (decode_loop utf8_decode).
Local Abbreviation create_chstr :=
  (create_chstr malloc_ok indeterminate utf8_decode A_NORMAL).
Local Abbreviation Cset_str := (Cset_str malloc_ok indeterminate utf8_decode A_NORMAL).
Local Abbreviation Cset_ch := (Cset_ch A_NORMAL).
Local Abbreviation Cget := (Cget A_ATTRIBUTES A_COLOR).
Local Abbreviation Cdup := (Cdup malloc_ok).


Lemma andb_in_range lo hi z : (lo < z /\ z <= hi) -> (lo <? z) && (z <=? hi) = true.
Proof. intros. apply andb_true_iff. rewrite Z.ltb_lt, Z.leb_le. lia. Qed.

Lemma andb_out_of_range lo hi z : ~ (lo < z /\ z <= hi) -> (lo <? z) && (z <=? hi) = false.
Proof.
  intros H. apply andb_false_iff. rewrite Z.ltb_ge, Z.leb_gt. lia.
Qed.

(** X1: on a buffer that satisfies the invariant, get at an offset in
    [1, length] returns the code and the masked attribute of the cell at
    offset - 1, which is in the block; at any other offset (0, length + 1, a
    negative one) it raises the index error; the state is as it was in both
    cases. *)
Theorem get_bounds L pcs cs offset :
  L !! pcs = Some cs ->
  chstr_wf cs ->
  (1 <= offset <= cs_len cs ->
     exists c, cs_str cs !! Z.to_nat (offset - 1) = Some c /\
       Cget pcs offset L
       = Return (cc_chars0 c, Z.land (cc_attr c) A_ATTRIBUTES,
                 Z.land (cc_attr c) A_COLOR) L) /\
  (~ 1 <= offset <= cs_len cs ->
     Cget pcs offset L = Raise (ArgError 2 "index range: [1 .. cs:len()]") L).
Proof.
  intros Hcs Hwf. rewrite (Cget_run _ _ _ _ _ _ Hcs Hwf). split; intros Hoff.
  - rewrite andb_in_range by lia.
    destruct (lookup_lt_is_Some_2 (cs_str cs) (Z.to_nat (offset - 1))) as [c Hc].
    { rewrite (wf_block _ Hwf). pose proof (wf_len_size _ Hwf).
      unfold CHSTR_CELLS. lia. }
    exists c. rewrite Hc. auto.
  - rewrite andb_out_of_range by lia. reflexivity.
Qed.

(** X2: on a buffer that satisfies the invariant, set_str raises, in this
    order: "bad index" for an offset outside [1, length]; "rep should > 0"
    for a count below 1; "malloc failed" when the array of codes is denied;
    "empty string" for the empty text; "realloc failed" when the text
    decodes, the extent is above the capacity and the larger block is denied.
    Every call of set_str that raises leaves the state as it was. *)
Theorem set_str_errors L pcs cs offset str attr rep :
  L !! pcs = Some cs ->
  chstr_wf cs ->
  let r := optint rep 1 in
  let granted := malloc_ok (ReqInts (Z.of_nat (length str))) in
  (~ 1 <= offset <= cs_len cs ->
     Cset_str pcs offset str attr rep L = Raise (ArgError 2 "bad index") L) /\
  (1 <= offset <= cs_len cs -> r <= 0 ->
     Cset_str pcs offset str attr rep L = Raise (ArgError 5 "rep should > 0") L) /\
  (1 <= offset <= cs_len cs -> 0 < r -> granted = false ->
     Cset_str pcs offset str attr rep L = Raise (Error "malloc failed") L) /\
  (1 <= offset <= cs_len cs -> 0 < r -> granted = true -> str = [] ->
     Cset_str pcs offset str attr rep L = Raise (ArgError 3 "empty string") L) /\
  (forall codes,
     1 <= offset <= cs_len cs -> 0 < r -> granted = true ->
     decode_loop 0 str = (codes, true) -> codes <> [] ->
     cs_size cs < Z.of_nat (length codes) * r + (offset - 1) <= INT_MAX ->
     malloc_ok (ReqChstr (Z.of_nat (length codes) * r + (offset - 1))) = false ->
     Cset_str pcs offset str attr rep L = Raise (Error "realloc failed") L) /\
  (forall e L', Cset_str pcs offset str attr rep L = Raise e L' -> L' = L).
Proof.
  intros Hcs Hwf. cbv zeta.
  repeat apply conj.
  - intros Hoff. unfold Cset_str, bind, checkchstr, luaL_argcheck, luaL_argerror.
    rewrite Hcs, (to_int_len _ Hwf), andb_out_of_range by lia. reflexivity.
  - intros Hoff Hrep.
    unfold Cset_str, bind, checkchstr, luaL_argcheck, luaL_argerror, ret.
    rewrite Hcs, (to_int_len _ Hwf), andb_in_range by lia.
    replace (0 <? optint rep 1) with false by (symmetry; apply Z.ltb_ge; lia).
    reflexivity.
  - intros Hoff Hrep Hm.
    unfold Cset_str, bind, checkchstr, luaL_argcheck, ret.
    rewrite Hcs, (to_int_len _ Hwf), andb_in_range by lia.
    replace (0 <? optint rep 1) with true by (symmetry; apply Z.ltb_lt; lia).
    rewrite Hm. reflexivity.
  - intros Hoff Hrep Hm ->.
    unfold Cset_str, bind, checkchstr, luaL_argcheck, ret.
    rewrite Hcs, (to_int_len _ Hwf), andb_in_range by lia.
    replace (0 <? optint rep 1) with true by (symmetry; apply Z.ltb_lt; lia).
    rewrite Hm. reflexivity.
  - intros codes Hoff Hrep Hm Hdec Hne Hreq Hdenied.
    assert (1 <= Z.of_nat (length codes))
      by (destruct codes; simpl in *; [congruence|lia]).
    assert (Z.of_nat (length codes) <= Z.of_nat (length codes) * optint rep 1) by nia.
    unfold Cset_str, bind, checkchstr, luaL_argcheck, ret, free_code_array.
    rewrite Hcs, (to_int_len _ Hwf), andb_in_range by lia.
    replace (0 <? optint rep 1) with true by (symmetry; apply Z.ltb_lt; lia).
    rewrite Hm, Hdec. unfold negb.
    rewrite int_result_small by (unfold INT_MIN, INT_MAX in *; lia).
    replace (Z.of_nat (length codes) <? 1) with false by (symmetry; apply Z.ltb_ge; lia).
    rewrite int_result_small by (unfold INT_MIN, INT_MAX in *; lia).
    rewrite int_result_small by (unfold INT_MIN, INT_MAX in *; lia).
    rewrite to_size_t_small by (unfold INT_MAX, UINT_MAX in *; lia).
    replace (cs_size cs <? Z.of_nat (length codes) * optint rep 1 + (offset - 1))
      with true by (symmetry; apply Z.ltb_lt; lia).
    rewrite Hdenied, Z.sub_diag. reflexivity.
  - intros e L'. apply Cset_str_Raise.
Qed.



(** X3: on a buffer that satisfies the invariant and with an allocator that
    grants the array of codes and every block, set_str returns exactly when
    the offset is in [1, length], the count is at least 1, the text decodes
    into at least one code, and the extent
    decoded_length * repeat + (offset - 1) is at most INT_MAX. *)
Theorem set_str_returns_iff L pcs cs offset str attr rep :
  L !! pcs = Some cs ->
  chstr_wf cs ->
  malloc_ok (ReqInts (Z.of_nat (length str))) = true ->
  (forall n, malloc_ok (ReqChstr n) = true) ->
  (exists L', Cset_str pcs offset str attr rep L = Return tt L') <->
  (exists codes,
     1 <= offset <= cs_len cs /\ 1 <= optint rep 1 /\
     decode_loop 0 str = (codes, true) /\ codes <> [] /\
     Z.of_nat (length codes) * optint rep 1 + (offset - 1) <= INT_MAX).
Proof.
  intros Hcs Hwf Hints Hblocks. split.
  - intros [L' Hrun].
    destruct (Cset_str_Return _ _ _ _ _ _ _ _ _ _ _ _ Hcs Hrun)
      as (codes & p & cells & Hoff & Hrep & Hdec & Hne & Hreq & _).
    rewrite (to_int_len _ Hwf) in Hoff. exists codes. repeat split; auto; lia.
  - intros (codes & Hoff & Hrep & Hdec & Hne & Hreq).
    apply (Cset_str_in_range malloc_ok indeterminate utf8_decode A_NORMAL
             L pcs cs offset str attr rep codes); auto. lia.
Qed.



(** The buffer [Cset_str] leaves satisfies the invariant. *)
Lemma Cset_str_Return_wf L pcs cs offset str attr rep L' :
  L !! pcs = Some cs ->
  chstr_wf cs ->
  Cset_str pcs offset str attr rep L = Return tt L' ->
  exists cs', L' !! pcs = Some cs' /\ chstr_wf cs'.
Proof.
  intros Hcs Hwf Hrun.
  destruct (Cset_str_Return _ _ _ _ _ _ _ _ _ _ _ _ Hcs Hrun)
    as (codes & p & cells & Hoff & Hrep & _ & Hne & Hreq & Hfill & ->).
  cbv zeta in *. eexists. split; [apply lookup_insert_eq|].
  apply fill_rep_Some in Hfill as (Hl & _).
  assert (1 <= Z.of_nat (length codes))
    by (destruct codes; simpl in *; [congruence|lia]).
  set (required := Z.of_nat (length codes) * optint rep 1 + (offset - 1)) in *.
  assert (1 <= required) by (unfold required; nia).
  destruct Hwf as [Hpos Hsize Hint Huint Hblock].
  split; cbn [cs_len cs_size cs_str]; rewrite ?Hl;
    destruct (cs_size cs <? required) eqn:Hgrow;
    destruct (cs_len cs <? required) eqn:Hlen;
    rewrite ?Z.ltb_lt, ?Z.ltb_ge in Hgrow, Hlen;
    unfold INT_MAX, UINT_MAX in *; try lia; try exact Hblock;
    apply realloc_chstr_grow; rewrite Hblock; unfold CHSTR_CELLS; lia.
Qed.

(** X5: after a call of set_str that returns, with the text decoded into
    the codes c[0..d-1], get at the offset offset + k, for every k below
    d * repeat, returns c[k mod d] with the attribute of the call masked by
    the style mask and by the colour mask (the masks being 32-bit values). *)
Theorem set_str_get L pcs cs offset str attr rep L' :
  L !! pcs = Some cs ->
  chstr_wf cs ->
  0 <= A_ATTRIBUTES <= UINT_MAX ->
  0 <= A_COLOR <= UINT_MAX ->
  Cset_str pcs offset str attr rep L = Return tt L' ->
  exists codes,
    decode_loop 0 str = (codes, true) /\
    forall k, (k < Z.to_nat (optint rep 1) * length codes)%nat ->
      exists c, codes !! (k mod length codes)%nat = Some c /\
        Cget pcs (offset + Z.of_nat k) L'
        = Return (c, Z.land (optint attr A_NORMAL) A_ATTRIBUTES,
                  Z.land (optint attr A_NORMAL) A_COLOR) L'.
Proof.
  intros Hcs Hwf Hstyle Hcolor Hrun.
  destruct (Cset_str_Return_wf _ _ _ _ _ _ _ _ Hcs Hwf Hrun) as (cs' & Hcs' & Hwf').
  destruct (Cset_str_Return _ _ _ _ _ _ _ _ _ _ _ _ Hcs Hrun)
    as (codes & p & cells & Hoff & Hrep & Hdec & Hne & Hreq & Hfill & HL').
  cbv zeta in *. exists codes. split; [exact Hdec|]. intros k Hk.
  apply fill_rep_Some in Hfill as (_ & _ & Hin & _).
  destruct (Hin k Hk) as (c & Hc & Hcell). exists c. split; [exact Hc|].
  rewrite (Cget_run _ _ _ _ _ _ Hcs' Hwf').
  assert (Hcs'' : cs' = Chstr
            (if cs_len cs <? Z.of_nat (length codes) * optint rep 1 + (offset - 1)
             then Z.of_nat (length codes) * optint rep 1 + (offset - 1) else cs_len cs)
            (if cs_size cs <? Z.of_nat (length codes) * optint rep 1 + (offset - 1)
             then Z.of_nat (length codes) * optint rep 1 + (offset - 1) else cs_size cs)
            cells).
  { rewrite HL', lookup_insert_eq in Hcs'. congruence. }
  assert (Hlen : offset + Z.of_nat k <= cs_len cs').
  { rewrite Hcs''. cbn [cs_len].
    assert (Z.of_nat k < Z.of_nat (length codes) * optint rep 1).
    { apply Nat2Z.inj_lt in Hk. rewrite Nat2Z.inj_mul, Z2Nat.id in Hk by lia. lia. }
    destruct (cs_len cs <? _) eqn:E; rewrite ?Z.ltb_lt, ?Z.ltb_ge in E; lia. }
  rewrite andb_in_range by lia.
  replace (Z.to_nat (offset + Z.of_nat k - 1)) with (Z.to_nat (offset - 1) + k)%nat by lia.
  rewrite Hcs''. cbn [cs_str]. rewrite Hcell. cbn [cc_chars0 cc_attr].
  rewrite !land_to_attr_t by assumption. reflexivity.
Qed.



(** X7: for a text that is not empty, decodes, has fewer than 2^32 bytes
    and at most INT_MAX code points, the constructor, its block granted,
    returns a new userdata on which get at the offset k + 1 returns the k-th
    code of the text with the attribute masked by the style mask and by the
    colour mask, get at the offset 0 and at the offset one above the number
    of codes raises the index error, len returns the number of codes and size
    the number of bytes. *)
Theorem new_from_text_get L narg str attr codes :
  str <> [] ->
  decode_loop 0 str = (codes, true) ->
  Z.of_nat (length str) <= UINT_MAX ->
  Z.of_nat (length codes) <= INT_MAX ->
  malloc_ok (ReqChstr (Z.of_nat (length str))) = true ->
  0 <= A_ATTRIBUTES <= UINT_MAX ->
  0 <= A_COLOR <= UINT_MAX ->
  exists L',
    let ud := new_userdata L in
    create_chstr narg (LString str) attr L = Return ud L' /\
    (forall k c, codes !! k = Some c ->
       Cget ud (Z.of_nat k + 1) L'
       = Return (c, Z.land (optint attr A_NORMAL) A_ATTRIBUTES,
                 Z.land (optint attr A_NORMAL) A_COLOR) L') /\
    Cget ud 0 L' = Raise (ArgError 2 "index range: [1 .. cs:len()]") L' /\
    Cget ud (Z.of_nat (length codes) + 1) L'
    = Raise (ArgError 2 "index range: [1 .. cs:len()]") L' /\
    Clen ud L' = Return (Z.of_nat (length codes)) L' /\
    Csize ud L' = Return (Z.of_nat (length str)) L'.
Proof.
  intros Hne Hdec Hbytes Hcodes Hmalloc Hstyle Hcolor.
  destruct (chstr_new_decoded malloc_ok indeterminate utf8_decode L str
              (optint attr A_NORMAL) codes Hne Hdec Hcodes Hmalloc)
    as (cells & Hrun & Hl & Hin).
  pose proof (decode_loop_length_le _ _ _ _ Hdec) as Hle.
  pose proof (decode_loop_nonempty _ _ _ Hne Hdec) as Hcne.
  assert (1 <= Z.of_nat (length codes))
    by (destruct codes; simpl in *; [congruence|lia]).
  rewrite !to_uint_small in Hrun by (unfold INT_MAX, UINT_MAX in *; lia).
  set (cs := Chstr (Z.of_nat (length codes)) (Z.of_nat (length str)) cells) in *.
  assert (Hwf : chstr_wf cs).
  { split; cbn [cs cs_len cs_size cs_str]; unfold INT_MAX, UINT_MAX in *; auto; lia. }
  exists (<[new_userdata L := cs]> L). cbv zeta.
  assert (Hcs : <[new_userdata L := cs]> L !! new_userdata L = Some cs)
    by apply lookup_insert_eq.
  split; [|split; [|split; [|split; [|split]]]].
  - unfold create_chstr, bind. rewrite Hrun. reflexivity.
  - intros k c Hk. pose proof (lookup_lt_Some _ _ _ Hk).
    rewrite (Cget_run _ _ _ _ _ _ Hcs Hwf). cbn [cs cs_len cs_str].
    rewrite andb_in_range by lia.
    replace (Z.to_nat (Z.of_nat k + 1 - 1)) with k by lia.
    rewrite (Hin _ _ Hk). cbn [cc_chars0 cc_attr].
    rewrite !land_to_attr_t by assumption. reflexivity.
  - rewrite (Cget_run _ _ _ _ _ _ Hcs Hwf). reflexivity.
  - rewrite (Cget_run _ _ _ _ _ _ Hcs Hwf). cbn [cs cs_len].
    rewrite andb_out_of_range by lia. reflexivity.
  - unfold Clen, bind, checkchstr. rewrite Hcs. reflexivity.
  - unfold Csize, bind, checkchstr. rewrite Hcs. reflexivity.
Qed.



(** X9: in a state whose buffers satisfy the invariant, set_ch, get and dup
    have a defined outcome for every userdata and all arguments: they return
    or raise, and never read or write outside a block. *)
Theorem methods_defined L pcs :
  state_wf L ->
  (forall offset ch attr rep, Cset_ch pcs offset ch attr rep L <> Undefined) /\
  (forall offset, Cget pcs offset L <> Undefined) /\
  Cdup pcs L <> Undefined.
Proof.
  intros HL. destruct (L !! pcs) as [cs|] eqn:Hcs.
  - pose proof (HL _ _ Hcs) as Hwf. repeat apply conj.
    + intros offset ch attr rep. rewrite (Cset_ch_run _ _ _ _ _ _ _ _ Hcs Hwf).
      destruct ((0 <? offset) && (offset <=? cs_len cs)) eqn:Hoff; [|discriminate].
      destruct ((0 <? optint rep 1) && (optint rep 1 <=? cs_len cs - offset + 1)) eqn:Hrep;
        [|discriminate].
      apply andb_true_iff in Hoff as [?%Z.ltb_lt ?%Z.leb_le].
      apply andb_true_iff in Hrep as [?%Z.ltb_lt ?%Z.leb_le].
      destruct (set_ch_loop_spec (bool_decide (is_Some attr)) (optint attr A_NORMAL) ch
                  (Z.to_nat (optint rep 1)) (Z.to_nat (offset - 1)) (cs_str cs))
        as (cells & -> & _); [|discriminate].
      rewrite (wf_block _ Hwf). pose proof (wf_len_size _ Hwf).
      unfold CHSTR_CELLS. lia.
    + intros offset. rewrite (Cget_run _ _ _ _ _ _ Hcs Hwf).
      destruct ((0 <? offset) && (offset <=? cs_len cs)) eqn:Hoff; [|discriminate].
      apply andb_true_iff in Hoff as [?%Z.ltb_lt ?%Z.leb_le].
      destruct (lookup_lt_is_Some_2 (cs_str cs) (Z.to_nat (offset - 1))) as [c ->];
        [|discriminate].
      rewrite (wf_block _ Hwf). pose proof (wf_len_size _ Hwf).
      unfold CHSTR_CELLS. lia.
    + destruct (malloc_ok (ReqChstr (cs_len cs))) eqn:Hm.
      * rewrite (Cdup_run _ _ _ _ Hcs Hwf Hm). discriminate.
      * unfold Cdup, bind, checkchstr. rewrite Hcs.
        rewrite to_size_t_small, Hm; [discriminate|].
        destruct Hwf. unfold UINT_MAX. lia.
  - repeat apply conj; intros;
      unfold Cset_ch, Cget, Cdup, bind, checkchstr; rewrite Hcs; discriminate.
Qed.

(** X10: in a state whose buffers satisfy the invariant, set_str has a
    defined outcome whenever the text decodes and the extent
    decoded_length * repeat + (offset - 1) is at most INT_MAX: it returns or
    raises, and never writes outside the block.  (A text that does not
    decode and an extent above INT_MAX are the calls without a defined
    outcome.) *)
Theorem set_str_defined L pcs offset str attr rep codes :
  state_wf L ->
  decode_loop 0 str = (codes, true) ->
  Z.of_nat (length codes) * Z.max (optint rep 1) 1 + Z.max (offset - 1) 0 <= INT_MAX ->
  Cset_str pcs offset str attr rep L <> Undefined.
Proof.
  intros HL Hdec Hext. destruct (L !! pcs) as [cs|] eqn:Hcs.
  2:{ unfold Cset_str, bind, checkchstr. rewrite Hcs. discriminate. }
  pose proof (HL _ _ Hcs) as Hwf.
  destruct (decide (1 <= offset <= cs_len cs)) as [Hoff|Hoff].
  2:{ unfold Cset_str, bind, checkchstr, luaL_argcheck, luaL_argerror.
      rewrite Hcs, (to_int_len _ Hwf), andb_out_of_range by lia. discriminate. }
  destruct (decide (0 < optint rep 1)) as [Hrep|Hrep].
  2:{ unfold Cset_str, bind, checkchstr, luaL_argcheck, luaL_argerror, ret.
      rewrite Hcs, (to_int_len _ Hwf), andb_in_range by lia.
      replace (0 <? optint rep 1) with false by (symmetry; apply Z.ltb_ge; lia).
      discriminate. }
  destruct (malloc_ok (ReqInts (Z.of_nat (length str)))) eqn:Hints.
  2:{ unfold Cset_str, bind, checkchstr, luaL_argcheck, luaL_error, ret.
      rewrite Hcs, (to_int_len _ Hwf), andb_in_range by lia.
      replace (0 <? optint rep 1) with true by (symmetry; apply Z.ltb_lt; lia).
      rewrite Hints. discriminate. }
  rewrite Z.max_l in Hext by lia. rewrite Z.max_l in Hext by lia.
  destruct codes as [|c0 codes'] eqn:Hcodes.
  { unfold Cset_str, bind, checkchstr, luaL_argcheck, luaL_argerror, ret.
    rewrite Hcs, (to_int_len _ Hwf), andb_in_range by lia.
    replace (0 <? optint rep 1) with true by (symmetry; apply Z.ltb_lt; lia).
    rewrite Hints, Hdec. discriminate. }
  rewrite <- Hcodes in *.
  assert (Hne : codes <> []) by (rewrite Hcodes; discriminate).
  set (required := Z.of_nat (length codes) * optint rep 1 + (offset - 1)) in *.
  destruct (decide (cs_size cs < required)) as [Hgrow|Hgrow].
  - destruct (malloc_ok (ReqChstr required)) eqn:Hblock.
    + destruct (Cset_str_in_range malloc_ok indeterminate utf8_decode A_NORMAL
                  L pcs cs offset str attr rep codes) as [L' ->]; auto; try lia; discriminate.
    + assert (1 <= Z.of_nat (length codes)) by (rewrite Hcodes; simpl; lia).
      assert (Z.of_nat (length codes) <= Z.of_nat (length codes) * optint rep 1) by nia.
      unfold Cset_str, bind, checkchstr, luaL_argcheck, luaL_error, ret, free_code_array.
      rewrite Hcs, (to_int_len _ Hwf), andb_in_range by lia.
      replace (0 <? optint rep 1) with true by (symmetry; apply Z.ltb_lt; lia).
      rewrite Hints, Hdec. unfold negb.
      rewrite int_result_small by (unfold INT_MIN, INT_MAX in *; lia).
      replace (Z.of_nat (length codes) <? 1) with false by (symmetry; apply Z.ltb_ge; lia).
      rewrite int_result_small by (unfold INT_MIN, INT_MAX in *; lia).
      rewrite int_result_small by (unfold INT_MIN, INT_MAX, required in *; lia).
      fold required.
      rewrite to_size_t_small by (unfold INT_MAX, UINT_MAX, required in *; lia).
      replace (cs_size cs <? required) with true by (symmetry; apply Z.ltb_lt; lia).
      rewrite Hblock, Z.sub_diag. discriminate.
  - destruct (Cset_str_in_range malloc_ok indeterminate utf8_decode A_NORMAL
                L pcs cs offset str attr rep codes) as [L' ->]; auto; try lia; discriminate.
Qed.

(** X11: dup (buf), its block granted, returns a new userdata on which get
    gives, at every offset, what it gives on buf: the same code and masked
    attribute, or the same error; len and size on the duplicate both return
    the length of buf. *)
Theorem dup_get L pcs cs :
  L !! pcs = Some cs ->
  chstr_wf cs ->
  malloc_ok (ReqChstr (cs_len cs)) = true ->
  exists L',
    let ud := new_userdata L in
    Cdup pcs L = Return ud L' /\
    (forall offset,
       match Cget pcs offset L with
       | Return v _ => Cget ud offset L' = Return v L'
       | Raise e _ => Cget ud offset L' = Raise e L'
       | Undefined => False
       end) /\
    Clen ud L' = Return (cs_len cs) L' /\
    Csize ud L' = Return (cs_len cs) L'.
Proof.
  intros Hcs Hwf Hmalloc. eexists. cbv zeta.
  split; [apply (Cdup_run _ _ _ _ Hcs Hwf Hmalloc)|].
  set (ncs := Chstr (cs_len cs) (cs_len cs) (take (CHSTR_CELLS (cs_len cs)) (cs_str cs))).
  assert (Hncs : <[new_userdata L := ncs]> L !! new_userdata L = Some ncs)
    by apply lookup_insert_eq.
  assert (Hnwf : chstr_wf ncs).
  { destruct Hwf as [Hpos Hsize Hint Huint Hblock].
    split; cbn [ncs cs_len cs_size cs_str]; unfold INT_MAX, UINT_MAX in *; try lia.
    rewrite length_take, Hblock. unfold CHSTR_CELLS. lia. }
  split; [|split].
  - intros offset.
    rewrite (Cget_run _ _ _ _ _ _ Hcs Hwf), (Cget_run _ _ _ _ _ _ Hncs Hnwf).
    cbn [ncs cs_len cs_str].
    destruct ((0 <? offset) && (offset <=? cs_len cs)) eqn:Hoff; [|reflexivity].
    apply andb_true_iff in Hoff as [?%Z.ltb_lt ?%Z.leb_le].
    rewrite lookup_take_lt by (unfold CHSTR_CELLS; lia).
    destruct (lookup_lt_is_Some_2 (cs_str cs) (Z.to_nat (offset - 1))) as [c ->];
      [|reflexivity].
    rewrite (wf_block _ Hwf). pose proof (wf_len_size _ Hwf).
    unfold CHSTR_CELLS. lia.
  - unfold Clen, bind, checkchstr. rewrite Hncs. reflexivity.
  - unfold Csize, bind, checkchstr. rewrite Hncs. reflexivity.
Qed.


(** The loop of [Cset_ch] over [a + b] cells is the loop over [a] cells
    followed by the loop over the next [b]. *)
Lemma set_ch_loop_add set_attr attr ch b a : forall offset str,
  set_ch_loop (a + b) set_attr attr ch offset str =
  match set_ch_loop a set_attr attr ch offset str with
  | Some str' => set_ch_loop b set_attr attr ch (offset + a) str'
  | None => None
  end.
Proof.
  induction a as [|a IH]; intros offset str; simpl.
  - rewrite Nat.add_0_r. reflexivity.
  - destruct (str !! offset) as [old|]; [|reflexivity].
    rewrite IH. replace (S offset + a)%nat with (offset + S a)%nat by lia.
    reflexivity.
Qed.

(** X12: a set_ch over a + b cells is a set_ch over the first a cells
    followed by a set_ch over the next b: on a buffer that satisfies the
    invariant, with the cells offset .. offset + a + b - 1 within the length,
    the three calls return and the one call leaves the state the two leave. *)
Theorem set_ch_split L pcs cs offset ch attr a b :
  L !! pcs = Some cs ->
  chstr_wf cs ->
  1 <= offset -> 1 <= a -> 1 <= b ->
  offset + a + b - 1 <= cs_len cs ->
  exists L1 L2,
    Cset_ch pcs offset ch attr (Some a) L = Return tt L1 /\
    Cset_ch pcs (offset + a) ch attr (Some b) L1 = Return tt L2 /\
    Cset_ch pcs offset ch attr (Some (a + b)) L = Return tt L2.
Proof.
  intros Hcs Hwf Hoff Ha Hb Hfit.
  destruct (Cset_ch_in_range A_NORMAL L pcs cs offset ch attr (Some a) Hcs Hwf)
    as (cs1 & Hrun1 & Hlen1 & Hsize1 & Hblock1 & _); [lia | simpl; lia |].
  assert (Hwf1 : chstr_wf cs1) by (destruct Hwf; split; congruence).
  assert (Hcs1 : <[pcs := cs1]> L !! pcs = Some cs1) by apply lookup_insert_eq.
  destruct (Cset_ch_in_range A_NORMAL _ pcs cs1 (offset + a) ch attr (Some b) Hcs1 Hwf1)
    as (cs2 & Hrun2 & _); [lia | simpl; lia |].
  exists (<[pcs := cs1]> L), (<[pcs := cs2]> (<[pcs := cs1]> L)).
  split; [exact Hrun1|]. split; [exact Hrun2|].
  rewrite (Cset_ch_run A_NORMAL L pcs cs offset ch attr (Some a) Hcs Hwf) in Hrun1.
  rewrite (Cset_ch_run A_NORMAL L pcs cs offset ch attr (Some (a + b)) Hcs Hwf).
  rewrite (Cset_ch_run _ _ _ _ _ _ _ _ Hcs1 Hwf1) in Hrun2.
  rewrite Hlen1 in Hrun2. cbn [optint] in *.
  rewrite andb_in_range in Hrun1 |- * by lia.
  rewrite andb_in_range in Hrun1 |- * by lia.
  rewrite andb_in_range in Hrun2 by lia.
  rewrite andb_in_range in Hrun2 by lia.
  replace (Z.to_nat (a + b)) with (Z.to_nat a + Z.to_nat b)%nat by lia.
  rewrite set_ch_loop_add.
  destruct (set_ch_loop (Z.to_nat a) _ _ _ _ _) as [cells1|]; [|discriminate].
  injection Hrun1 as Hrun1. apply (f_equal (fun m => m !! pcs)) in Hrun1.
  rewrite !lookup_insert_eq in Hrun1. injection Hrun1 as <-.
  cbn [cs_str cs_len cs_size] in Hrun2.
  replace (Z.to_nat (offset + a - 1)) with (Z.to_nat (offset - 1) + Z.to_nat a)%nat
    in Hrun2 by lia.
  destruct (set_ch_loop (Z.to_nat b) _ _ _ _ _) as [cells2|]; [|discriminate].
  injection Hrun2 as <-. rewrite insert_insert_eq. reflexivity.
Qed.

(** X13: for a text of one code ch, set_str with an attribute and a count
    does what set_ch with ch, that attribute and that count does, where
    set_ch accepts the call: on a buffer that satisfies the invariant, with
    the offset in [1, length] and the count in [1, length - offset + 1], both
    return and leave the same state. *)
Theorem set_str_one_code_is_set_ch L pcs cs offset str ch attr rep :
  L !! pcs = Some cs ->
  chstr_wf cs ->
  decode_loop 0 str = ([ch], true) ->
  malloc_ok (ReqInts (Z.of_nat (length str))) = true ->
  1 <= offset <= cs_len cs ->
  1 <= rep <= cs_len cs - offset + 1 ->
  exists L',
    Cset_ch pcs offset ch (Some attr) (Some rep) L = Return tt L' /\
    Cset_str pcs offset str (Some attr) (Some rep) L = Return tt L'.
Proof.
  intros Hcs Hwf Hdec Hints Hoff Hrep.
  pose proof (wf_len_size _ Hwf) as Hsize. pose proof (wf_len_int _ Hwf) as Hint.
  destruct (Cset_ch_in_range A_NORMAL L pcs cs offset ch (Some attr) (Some rep) Hcs Hwf)
    as (cs1 & Hrun1 & Hlen1 & Hsize1 & Hblock1 & Hin1 & Hout1); [lia | simpl; lia |].
  exists (<[pcs := cs1]> L). split; [exact Hrun1|].
  destruct (Cset_str_in_range malloc_ok indeterminate utf8_decode A_NORMAL
              L pcs cs offset str (Some attr) (Some rep) [ch]) as [L' Hrun];
    auto; try (simpl; unfold INT_MAX; lia); try discriminate.
  rewrite Hrun. f_equal.
  destruct (Cset_str_Return _ _ _ _ _ _ _ _ _ _ _ _ Hcs Hrun)
    as (codes & p & cells & _ & _ & Hdec' & _ & _ & Hfill & ->).
  rewrite Hdec in Hdec'. injection Hdec' as <-. cbv zeta in Hfill.
  cbn [optint length] in *.
  replace (cs_size cs <? Z.of_nat 1 * rep + (offset - 1)) with false in *
    by (symmetry; apply Z.ltb_ge; lia).
  replace (cs_len cs <? Z.of_nat 1 * rep + (offset - 1)) with false
    by (symmetry; apply Z.ltb_ge; lia).
  f_equal. destruct cs1 as [len1 size1 cells1]. cbn [cs_len cs_size cs_str] in *.
  subst len1 size1. f_equal.
  apply fill_rep_Some in Hfill as (Hl & _ & Hin & Hout).
  cbn [length] in Hin, Hout. rewrite Nat.mul_1_r in Hin, Hout.
  apply list_eq. intros j.
  destruct (decide (Z.to_nat (offset - 1) <= j < Z.to_nat (offset - 1) + Z.to_nat rep)%nat)
    as [Hj|Hj].
  - destruct (Hin1 j Hj) as (old & _ & ->).
    destruct (Hin (j - Z.to_nat (offset - 1))%nat) as (c & Hc & Hcell); [lia|].
    rewrite Nat.mod_1_r in Hc. injection Hc as <-.
    replace (Z.to_nat (offset - 1) + (j - Z.to_nat (offset - 1)))%nat with j in Hcell by lia.
    rewrite Hcell. reflexivity.
  - rewrite Hout1, Hout by lia. reflexivity.
Qed.


(** X14: the two decoding loops agree.  For a text that is not empty,
    decodes and has fewer than 2^32 bytes and at most INT_MAX code points,
    and an allocator that grants every request: the constructor on the text,
    and the constructor on the size 1 followed by set_str of the text at the
    offset 1, both return, give the same length, and get returns the same
    value or raises the same error at every offset of the two buffers. *)
Theorem new_from_text_as_set_str L narg str attr codes :
  str <> [] ->
  decode_loop 0 str = (codes, true) ->
  Z.of_nat (length str) <= UINT_MAX ->
  Z.of_nat (length codes) <= INT_MAX ->
  (forall request, malloc_ok request = true) ->
  let ud := new_userdata L in
  exists La Lb0 Lb,
    create_chstr narg (LString str) attr L = Return ud La /\
    create_chstr narg (LNumber 1) None L = Return ud Lb0 /\
    Cset_str ud 1 str attr None Lb0 = Return tt Lb /\
    Clen ud La = Return (Z.of_nat (length codes)) La /\
    Clen ud Lb = Return (Z.of_nat (length codes)) Lb /\
    (forall offset,
       match Cget ud offset La with
       | Return v _ => Cget ud offset Lb = Return v Lb
       | Raise e _ => Cget ud offset Lb = Raise e Lb
       | Undefined => False
       end).
Proof.
  intros Hne Hdec Hbytes Hcodes Hmalloc ud.
  pose proof (decode_loop_length_le _ _ _ _ Hdec) as Hle.
  pose proof (decode_loop_nonempty _ _ _ Hne Hdec) as Hcne.
  assert (Hpos : 1 <= Z.of_nat (length codes))
    by (destruct codes; simpl in *; [congruence|lia]).
  (* the constructor on the text *)
  destruct (chstr_new_decoded malloc_ok indeterminate utf8_decode L str
              (optint attr A_NORMAL) codes Hne Hdec Hcodes (Hmalloc _))
    as (cells_a & Hrun_a & Hl_a & Hin_a).
  rewrite !to_uint_small in Hrun_a by (unfold INT_MAX, UINT_MAX in *; lia).
  set (csa := Chstr (Z.of_nat (length codes)) (Z.of_nat (length str)) cells_a) in *.
  assert (Hwfa : chstr_wf csa).
  { split; cbn [csa cs_len cs_size cs_str]; unfold INT_MAX, UINT_MAX in *; auto; lia. }
  (* the constructor on the size 1 *)
  destruct (chstr_new_by_size_run malloc_ok indeterminate A_NORMAL L 1)
    as (cells0 & Hrun0 & Hl0 & _); [unfold INT_MAX; lia | apply Hmalloc |].
  set (cs0 := Chstr 1 1 cells0) in *.
  assert (Hwf0 : chstr_wf cs0).
  { split; cbn [cs0 cs_len cs_size cs_str]; auto; lia. }
  assert (Hcs0 : <[ud := cs0]> L !! ud = Some cs0) by apply lookup_insert_eq.
  (* set_str on it *)
  destruct (Cset_str_in_range malloc_ok indeterminate utf8_decode A_NORMAL
              (<[ud := cs0]> L) ud cs0 1 str attr None codes) as [Lb Hrun_b];
    auto; try (cbn [cs0 cs_len]; lia); try (rewrite optint_rep_default; lia).
  destruct (Cset_str_Return_wf _ _ _ _ _ _ _ _ Hcs0 Hwf0 Hrun_b) as (csb & Hcsb & Hwfb).
  destruct (Cset_str_Return _ _ _ _ _ _ _ _ _ _ _ _ Hcs0 Hrun_b)
    as (codes' & p & cells_b & _ & _ & Hdec' & _ & _ & Hfill & HLb).
  rewrite Hdec in Hdec'. injection Hdec' as <-. cbv zeta in *.
  rewrite optint_rep_default in *.
  replace (Z.of_nat (length codes) * 1 + (1 - 1)) with (Z.of_nat (length codes))
    in * by lia.
  assert (Hcsb' : csb = Chstr (Z.of_nat (length codes))
            (if cs_size cs0 <? Z.of_nat (length codes)
             then Z.of_nat (length codes) else cs_size cs0) cells_b).
  { rewrite HLb, lookup_insert_eq in Hcsb. injection Hcsb as <-. f_equal.
    cbn [cs0 cs_len].
    destruct (1 <? Z.of_nat (length codes)) eqn:E;
      rewrite ?Z.ltb_lt, ?Z.ltb_ge in E; lia. }
  apply fill_rep_Some in Hfill as (_ & _ & Hin_b & _).
  assert (Hcsa : <[ud := csa]> L !! ud = Some csa) by apply lookup_insert_eq.
  exists (<[ud := csa]> L), (<[ud := cs0]> L), Lb.
  split; [|split; [|split; [|split; [|split]]]].
  - unfold create_chstr, bind. rewrite Hrun_a. reflexivity.
  - unfold create_chstr, bind, luaL_argcheck, ret. cbn [Z.ltb Z.compare].
    rewrite Hrun0. reflexivity.
  - exact Hrun_b.
  - unfold Clen, bind, checkchstr. rewrite Hcsa. reflexivity.
  - unfold Clen, bind, checkchstr. rewrite Hcsb, Hcsb'. reflexivity.
  - intros offset.
    rewrite (Cget_run _ _ _ _ _ _ Hcsa Hwfa), (Cget_run _ _ _ _ _ _ Hcsb Hwfb).
    rewrite Hcsb'. cbn [csa cs_len cs_str].
    destruct ((0 <? offset) && (offset <=? Z.of_nat (length codes))) eqn:Hoff;
      [|reflexivity].
    apply andb_true_iff in Hoff as [?%Z.ltb_lt ?%Z.leb_le].
    destruct (lookup_lt_is_Some_2 codes (Z.to_nat (offset - 1))) as [c Hc]; [lia|].
    rewrite (Hin_a _ _ Hc).
    destruct (Hin_b (Z.to_nat (offset - 1))) as (c' & Hc' & Hcell); [lia|].
    rewrite Nat.mod_small in Hc' by lia. rewrite Hc in Hc'. injection Hc' as <-.
    replace (Z.to_nat (1 - 1) + Z.to_nat (offset - 1))%nat
      with (Z.to_nat (offset - 1)) in Hcell by lia.
    rewrite Hcell. reflexivity.
Qed.


(** X15: set_ch without an attribute changes the code and keeps the
    attribute: on a buffer that satisfies the invariant, if get at an offset
    in [1, length] returns a style and a colour, then after set_ch (offset,
    ch) with the attribute absent, get at that offset returns ch with the
    same style and the same colour. *)
Theorem set_ch_keeps_attribute L pcs cs offset ch code style color :
  L !! pcs = Some cs ->
  chstr_wf cs ->
  1 <= offset <= cs_len cs ->
  Cget pcs offset L = Return (code, style, color) L ->
  exists L',
    Cset_ch pcs offset ch None None L = Return tt L' /\
    Cget pcs offset L' = Return (ch, style, color) L'.
Proof.
  intros Hcs Hwf Hoff Hget.
  destruct (Cset_ch_in_range A_NORMAL L pcs cs offset ch None None Hcs Hwf)
    as (cs' & Hrun & Hlen & Hsize & Hblock & Hin & _);
    [exact Hoff | rewrite optint_rep_default; lia |].
  exists (<[pcs := cs']> L). split; [exact Hrun|].
  assert (Hwf' : chstr_wf cs') by (destruct Hwf; split; congruence).
  rewrite (Cget_run _ _ _ _ _ _ Hcs Hwf) in Hget.
  rewrite (Cget_run _ _ _ _ _ _ (lookup_insert_eq _ _ _) Hwf'), Hlen.
  rewrite andb_in_range in Hget |- * by lia.
  destruct (Hin (Z.to_nat (offset - 1))) as (old & Hold & ->).
  { rewrite optint_rep_default. lia. }
  rewrite Hold in Hget. injection Hget as _ <- <-. reflexivity.
Qed.

(** X16: in every state reached from the empty state through calls of the
    constructor, set_str, set_ch, get, len, size and dup, returning or
    raising, where a size given to the constructor is an int and a text
    given to it has fewer than 2^32 bytes, every buffer has
    1 <= length <= capacity, a length within int, a capacity within unsigned
    int, and a block of capacity + 1 cells. *)
Theorem reachable_invariant L ud cs :
  reachable malloc_ok indeterminate utf8_decode A_NORMAL A_ATTRIBUTES A_COLOR L ->
  L !! ud = Some cs ->
  1 <= cs_len cs <= cs_size cs /\
  cs_len cs <= INT_MAX /\ cs_size cs <= UINT_MAX /\
  length (cs_str cs) = S (Z.to_nat (cs_size cs)).
Proof.
  intros Hreach Hcs.
  destruct (reachable_wf _ _ _ _ _ _ _ Hreach _ _ Hcs)
    as [Hpos Hsize Hint Huint Hblock].
  unfold INT_MAX, UINT_MAX. repeat split; auto.
Qed.


End Methods.

(** *** The further statements at concrete buffers *)

Ltac evaluate_range := vm_compute; intuition (first [discriminate | congruence]).

Lemma hi_grown_reachable :
  reachable Sample.malloc_ok Sample.indeterminate Utf8.utf8_decode Sample.A_NORMAL
    Sample.A_ATTRIBUTES Sample.A_COLOR Sample.hi_grown.
Proof.
  apply (reachable_call _ _ _ _ _ _
           (Call_set_str 1%positive 5 Sample.text_AB None (Some 3))
           Sample.hi_state); [|exact I|evaluate].
  apply (reachable_call _ _ _ _ _ _
           (Call_new (LString Sample.hi_world) (Some Sample.A_BOLD)) ∅);
    [apply reachable_empty|evaluate|evaluate].
Qed.

Lemma hi_state_wf : state_wf Sample.hi_state.
Proof.
  apply (reachable_wf Sample.malloc_ok Sample.indeterminate Utf8.utf8_decode
           Sample.A_NORMAL Sample.A_ATTRIBUTES Sample.A_COLOR).
  apply (reachable_call _ _ _ _ _ _
           (Call_new (LString Sample.hi_world) (Some Sample.A_BOLD)) ∅);
    [apply reachable_empty|evaluate|evaluate].
Qed.

(** get (4) on the buffer of [hi_world]. *)
Lemma get_bounds_witness :
  exists c, cs_str Sample.hi_buffer !! Z.to_nat (4 - 1) = Some c /\
    Sample.Cget 1%positive 4 Sample.hi_state
    = Return (cc_chars0 c, Z.land (cc_attr c) Sample.A_ATTRIBUTES,
              Z.land (cc_attr c) Sample.A_COLOR) Sample.hi_state.
Proof.
  apply (get_bounds Sample.A_ATTRIBUTES Sample.A_COLOR Sample.hi_state 1%positive
           Sample.hi_buffer 4); [evaluate | exact hi_buffer_wf | split; evaluate].
Defined.

(** set_str (6, "AB") on the buffer of [hi_world], of length 5. *)
Lemma set_str_errors_witness :
  Sample.Cset_str 1%positive 6 Sample.text_AB None None Sample.hi_state
  = Raise (ArgError 2 "bad index") Sample.hi_state.
Proof.
  apply (set_str_errors Sample.malloc_ok Sample.indeterminate Utf8.utf8_decode
           Sample.A_NORMAL Sample.hi_state 1%positive Sample.hi_buffer
           6 Sample.text_AB None None); [evaluate | exact hi_buffer_wf | evaluate_range].
Defined.

Lemma set_str_returns_iff_witness :
  (exists L', Sample.Cset_str 1%positive 5 Sample.text_AB None (Some 3) Sample.hi_state
              = Return tt L') <->
  (exists codes,
     1 <= 5 <= cs_len Sample.hi_buffer /\ 1 <= optint (Some 3) 1 /\
     decode_loop Utf8.utf8_decode 0 Sample.text_AB = (codes, true) /\ codes <> [] /\
     Z.of_nat (length codes) * optint (Some 3) 1 + (5 - 1) <= INT_MAX).
Proof.
  apply (set_str_returns_iff Sample.malloc_ok Sample.indeterminate Utf8.utf8_decode
           Sample.A_NORMAL Sample.hi_state 1%positive Sample.hi_buffer
           5 Sample.text_AB None (Some 3));
    [evaluate | exact hi_buffer_wf | evaluate | intros n; reflexivity].
Defined.


Lemma set_str_get_witness :
  exists codes,
    decode_loop Utf8.utf8_decode 0 Sample.text_AB = (codes, true) /\
    forall k, (k < Z.to_nat (optint (Some 3%Z) 1) * length codes)%nat ->
      exists c, codes !! (k mod length codes)%nat = Some c /\
        Sample.Cget 1%positive (5 + Z.of_nat k) Sample.hi_grown
        = Return (c, Z.land (optint None Sample.A_NORMAL) Sample.A_ATTRIBUTES,
                  Z.land (optint None Sample.A_NORMAL) Sample.A_COLOR)
            Sample.hi_grown.
Proof.
  apply (set_str_get Sample.malloc_ok Sample.indeterminate Utf8.utf8_decode
           Sample.A_NORMAL Sample.A_ATTRIBUTES Sample.A_COLOR
           Sample.hi_state 1%positive Sample.hi_buffer 5 Sample.text_AB None (Some 3));
    [evaluate | exact hi_buffer_wf | split; evaluate | split; evaluate | evaluate].
Defined.


Lemma new_from_text_get_witness :
  exists L',
    let ud := new_userdata ∅ in
    Sample.C__call (LString Sample.hi_world) (Some Sample.A_BOLD) ∅ = Return ud L' /\
    (forall k c, [104; 105; 44; 19990; 30028] !! k = Some c ->
       Sample.Cget ud (Z.of_nat k + 1) L'
       = Return (c, Z.land (optint (Some Sample.A_BOLD) Sample.A_NORMAL)
                        Sample.A_ATTRIBUTES,
                 Z.land (optint (Some Sample.A_BOLD) Sample.A_NORMAL) Sample.A_COLOR)
           L') /\
    Sample.Cget ud 0 L' = Raise (ArgError 2 "index range: [1 .. cs:len()]") L' /\
    Sample.Cget ud (Z.of_nat (length [104; 105; 44; 19990; 30028]) + 1) L'
    = Raise (ArgError 2 "index range: [1 .. cs:len()]") L' /\
    Sample.Clen ud L' = Return (Z.of_nat (length [104; 105; 44; 19990; 30028])) L' /\
    Sample.Csize ud L' = Return (Z.of_nat (length Sample.hi_world)) L'.
Proof.
  apply (new_from_text_get Sample.malloc_ok Sample.indeterminate Utf8.utf8_decode
           Sample.A_NORMAL Sample.A_ATTRIBUTES Sample.A_COLOR ∅ 2 Sample.hi_world
           (Some Sample.A_BOLD) [104; 105; 44; 19990; 30028]);
    [evaluate | evaluate | evaluate | evaluate | evaluate | split; evaluate
    | split; evaluate].
Defined.


Lemma methods_defined_witness :
  (forall offset ch attr rep,
     Sample.Cset_ch 1%positive offset ch attr rep Sample.hi_state <> Undefined) /\
  (forall offset, Sample.Cget 1%positive offset Sample.hi_state <> Undefined) /\
  Sample.Cdup 1%positive Sample.hi_state <> Undefined.
Proof.
  exact (methods_defined Sample.malloc_ok Sample.A_NORMAL Sample.A_ATTRIBUTES
           Sample.A_COLOR Sample.hi_state 1%positive hi_state_wf).
Defined.

Lemma set_str_defined_witness :
  Sample.Cset_str 1%positive 5 Sample.text_AB None (Some 3) Sample.hi_state
  <> Undefined.
Proof.
  apply (set_str_defined Sample.malloc_ok Sample.indeterminate Utf8.utf8_decode
           Sample.A_NORMAL Sample.hi_state 1%positive 5 Sample.text_AB None (Some 3)
           [65; 66]); [exact hi_state_wf | evaluate | evaluate].
Defined.

Lemma dup_get_witness :
  exists L',
    let ud := new_userdata Sample.hi_state in
    Sample.Cdup 1%positive Sample.hi_state = Return ud L' /\
    (forall offset,
       match Sample.Cget 1%positive offset Sample.hi_state with
       | Return v _ => Sample.Cget ud offset L' = Return v L'
       | Raise e _ => Sample.Cget ud offset L' = Raise e L'
       | Undefined => False
       end) /\
    Sample.Clen ud L' = Return (cs_len Sample.hi_buffer) L' /\
    Sample.Csize ud L' = Return (cs_len Sample.hi_buffer) L'.
Proof.
  apply (dup_get Sample.malloc_ok Sample.A_ATTRIBUTES Sample.A_COLOR
           Sample.hi_state 1%positive Sample.hi_buffer);
    [evaluate | exact hi_buffer_wf | evaluate].
Defined.

(** set_ch (1, U+03BB, nil, 2 + 3) on the buffer of [hi_world]. *)
Lemma set_ch_split_witness :
  exists L1 L2,
    Sample.Cset_ch 1%positive 1 955 None (Some 2) Sample.hi_state = Return tt L1 /\
    Sample.Cset_ch 1%positive (1 + 2) 955 None (Some 3) L1 = Return tt L2 /\
    Sample.Cset_ch 1%positive 1 955 None (Some (2 + 3)) Sample.hi_state = Return tt L2.
Proof.
  apply (set_ch_split Sample.A_NORMAL Sample.hi_state 1%positive Sample.hi_buffer
           1 955 None 2 3);
    [evaluate | exact hi_buffer_wf | evaluate | evaluate | evaluate | evaluate].
Defined.

(** set_str (2, "A", A_BOLD, 3) and set_ch (2, 65, A_BOLD, 3). *)
Lemma set_str_one_code_is_set_ch_witness :
  exists L',
    Sample.Cset_ch 1%positive 2 65 (Some Sample.A_BOLD) (Some 3) Sample.hi_state
    = Return tt L' /\
    Sample.Cset_str 1%positive 2 Sample.text_A (Some Sample.A_BOLD) (Some 3)
      Sample.hi_state
    = Return tt L'.
Proof.
  apply (set_str_one_code_is_set_ch Sample.malloc_ok Sample.indeterminate
           Utf8.utf8_decode Sample.A_NORMAL Sample.hi_state 1%positive
           Sample.hi_buffer 2 Sample.text_A 65 Sample.A_BOLD 3);
    [evaluate | exact hi_buffer_wf | evaluate | evaluate | split; evaluate
    | split; evaluate].
Defined.

Lemma new_from_text_as_set_str_witness :
  exists La Lb0 Lb,
    Sample.C__call (LString Sample.hi_world) (Some Sample.A_BOLD) ∅
    = Return (new_userdata ∅) La /\
    Sample.C__call (LNumber 1) None ∅ = Return (new_userdata ∅) Lb0 /\
    Sample.Cset_str (new_userdata ∅) 1 Sample.hi_world (Some Sample.A_BOLD) None Lb0
    = Return tt Lb /\
    Sample.Clen (new_userdata ∅) La
    = Return (Z.of_nat (length [104; 105; 44; 19990; 30028])) La /\
    Sample.Clen (new_userdata ∅) Lb
    = Return (Z.of_nat (length [104; 105; 44; 19990; 30028])) Lb /\
    (forall offset,
       match Sample.Cget (new_userdata ∅) offset La with
       | Return v _ => Sample.Cget (new_userdata ∅) offset Lb = Return v Lb
       | Raise e _ => Sample.Cget (new_userdata ∅) offset Lb = Raise e Lb
       | Undefined => False
       end).
Proof.
  apply (new_from_text_as_set_str Sample.malloc_ok Sample.indeterminate
           Utf8.utf8_decode Sample.A_NORMAL Sample.A_ATTRIBUTES Sample.A_COLOR
           ∅ 2 Sample.hi_world (Some Sample.A_BOLD) [104; 105; 44; 19990; 30028]);
    [evaluate | evaluate | evaluate | evaluate | intros request; reflexivity].
Defined.

(** get (4) on the buffer of [hi_world] returns U+4E16 in bold; set_ch (4,
    U+03BB) keeps the bold. *)
Lemma set_ch_keeps_attribute_witness :
  exists L',
    Sample.Cset_ch 1%positive 4 955 None None Sample.hi_state = Return tt L' /\
    Sample.Cget 1%positive 4 L' = Return (955, 2097152, 0) L'.
Proof.
  apply (set_ch_keeps_attribute Sample.A_NORMAL Sample.A_ATTRIBUTES Sample.A_COLOR
           Sample.hi_state 1%positive Sample.hi_buffer 4 955 19990 2097152 0);
    [evaluate | exact hi_buffer_wf | split; evaluate | evaluate].
Defined.

(** The buffer of [hi_world] after set_str (5, "AB", nil, 3). *)
Lemma reachable_invariant_witness :
  1 <= cs_len Sample.hi_grown_buffer <= cs_size Sample.hi_grown_buffer /\
  cs_len Sample.hi_grown_buffer <= INT_MAX /\
  cs_size Sample.hi_grown_buffer <= UINT_MAX /\
  length (cs_str Sample.hi_grown_buffer)
  = S (Z.to_nat (cs_size Sample.hi_grown_buffer)).
Proof.
  apply (reachable_invariant Sample.malloc_ok Sample.indeterminate Utf8.utf8_decode
           Sample.A_NORMAL Sample.A_ATTRIBUTES Sample.A_COLOR
           Sample.hi_grown 1%positive Sample.hi_grown_buffer);
    [exact hi_grown_reachable | evaluate].
Defined.
